(** * libpaxos-cpp: client retry layer, connection write queue and
      framed command protocol

    A shallow embedding of

    - [paxos++/client.cpp]                (module [Client]),
    - [paxos++/detail/tcp_connection.cpp] (module [TcpConnection], and
      module [TcpStorage] for the storage of the buffer),
    - [paxos++/detail/protocol/protocol.cpp] (module [Protocol]),

    followed by the properties of these definitions.

    Conventions.  A [std::string] is a list of bytes.  Fixed width
    integers are integers of [Z] with the wrap-around written where the
    source narrows a value.  Every function that the source runs as a
    completion handler of the io_service is a function from the state
    before the handler to the state after it; the io_service itself is a
    step function over the events that complete an outstanding
    operation. *)

From Stdlib Require Import ZArith List Lia Bool.
From Stdlib Require Import Strings.Byte.
Import ListNotations.

Local Open Scope Z_scope.

(** [std::string] *)
Definition std_string : Type := list byte.

(** [boost::system::error_code]: [None] is success, the value that
    converts to [false] in [if (error)]. *)
Inductive asio_error : Type :=
| operation_aborted
| eof
| connection_reset
| broken_pipe.

Definition system_error_code : Type := option asio_error.

(** The exception types the sources name: [exception::request_error]
    (client.cpp), [exception::not_ready] (test/connection_close1.cpp) and
    [exception::protocol_error] (protocol.cpp). *)
Inductive exception : Type :=
| request_error
| not_ready
| protocol_error.

(** Conversion of a value to [uint16_t] and to [uint32_t]. *)
Definition uint16 (z : Z) : Z := z mod 65536.
Definition uint32 (z : Z) : Z := z mod 4294967296.

(* ================================================================= *)
(** ** client.cpp *)

Module Client.

(** Modelled from the spec: [enum error_code] is declared in a header
    that is not part of the given sources; its values follow the error
    taxonomy of the specification.  [client::do_request] only tests
    whether an error is present. *)
Inductive error_code : Type :=
| error_transport
| error_protocol
| error_timeout
| error_request
| error_not_ready.

(** The shared state of the [std::promise <std::string>] made by
    [client::send], as [set_value] and [set_exception] leave it.  What
    the caller's future holds, the destruction of a promise that was
    never fulfilled included, is [future_of] below. *)
Inductive promise_state : Type :=
| pending
| has_value (v : std_string)
| has_exception (e : exception).

(** What running a handler gives: the state after it, or the
    [std::future_error] that a second fulfilment of a promise raises, or
    the refusal of an event that completes no outstanding operation. *)
Inductive outcome (A : Type) : Type :=
| returned (a : A)
| future_error
| not_enabled.

Arguments returned {A} a.
Arguments future_error {A}.
Arguments not_enabled {A}.

(** The request given to [request_queue_.push]: the byte array and the
    response callback; the callback is the closure over [promise],
    [byte_array] and [retries], kept as its captured values. *)
Record request : Type := mk_request {
  request_byte_array : std_string;
  request_retries : Z
}.

(** A [boost::asio::deadline_timer] with an outstanding [async_wait]:
    its expiry in milliseconds and the captures of the wait handler. *)
Record timer : Type := mk_timer {
  timer_expires_from_now : Z;
  timer_byte_array : std_string;
  timer_retries : Z
}.

(** The part of the client one [send] works on. *)
Record client : Type := mk_client {
  promise : promise_state;
  request_queue_ : list request;
  timers : list timer
}.

Definition set_value (response : std_string) (c : client) : outcome client :=
  match promise c with
  | pending => returned (mk_client (has_value response) (request_queue_ c) (timers c))
  | _ => future_error
  end.

Definition set_exception (e : exception) (c : client) : outcome client :=
  match promise c with
  | pending => returned (mk_client (has_exception e) (request_queue_ c) (timers c))
  | _ => future_error
  end.

(** [client::do_request]: pushes the request on the queue. *)
Definition do_request (byte_array : std_string) (retries : Z) (c : client) : client :=
  mk_client (promise c)
            (request_queue_ c ++ [mk_request byte_array retries])
            (timers c).

(** The handler given to [timer->async_wait] inside the callback. *)
Definition wait_handler (byte_array : std_string) (retries : Z)
  (error : system_error_code) (c : client) : client :=
  match error with
  | None => do_request byte_array (uint16 (retries - 1)) c
  | Some _ => c
  end.

(** The response callback built by [client::do_request]. *)
Definition response_callback (byte_array : std_string) (retries : Z)
  (error : option error_code) (response : std_string) (c : client) : outcome client :=
  match error with
  | Some _ =>
      if 0 <? retries
      then returned (mk_client (promise c) (request_queue_ c)
                               (timers c ++ [mk_timer 500 byte_array retries]))
      else set_exception request_error c
  | None => set_value response c
  end.

(** [client::send]: a new promise, then [do_request]. *)
Definition send (byte_array : std_string) (retries : Z) : client :=
  do_request byte_array retries (mk_client pending [] []).

(** The events of the io_service that concern the request: the request
    at the head of the queue completes and its callback is called once
    with an optional error and a response; the wait on the oldest timer
    completes with an error code. *)
Inductive event : Type :=
| response_arrives (error : option error_code) (response : std_string)
| wait_completes (error : system_error_code).

Definition step (c : client) (e : event) : outcome client :=
  match e with
  | response_arrives error response =>
      match request_queue_ c with
      | [] => not_enabled
      | r :: queue =>
          response_callback (request_byte_array r) (request_retries r) error response
                            (mk_client (promise c) queue (timers c))
      end
  | wait_completes error =>
      match timers c with
      | [] => not_enabled
      | t :: ts =>
          returned (wait_handler (timer_byte_array t) (timer_retries t) error
                                 (mk_client (promise c) (request_queue_ c) ts))
      end
  end.

Fixpoint run (c : client) (trace : list event) : outcome client :=
  match trace with
  | [] => returned c
  | e :: trace' =>
      match step c e with
      | returned c' => run c' trace'
      | future_error => future_error
      | not_enabled => not_enabled
      end
  end.

(** Nothing is outstanding: no request in the queue and no timer. *)
Definition quiescent (c : client) : bool :=
  match request_queue_ c, timers c with
  | [], [] => true
  | _, _ => false
  end.

Definition is_cancellation (e : event) : bool :=
  match e with
  | wait_completes (Some _) => true
  | _ => false
  end.

Definition fulfilled (c : client) : bool :=
  match promise c with
  | pending => false
  | _ => true
  end.

(** The work that is left: a request with [r] retries can be followed
    by [r] waits and [r] more requests. *)
Definition measure (c : client) : Z :=
  fold_right (fun r acc => 2 * request_retries r + 1 + acc) 0 (request_queue_ c)
  + fold_right (fun t acc => 2 * timer_retries t + acc) 0 (timers c).

(** The states a [send] of [byte_array] goes through: the request is in
    the queue, or its back-off timer runs, or nothing is outstanding. *)
Definition in_flight (byte_array : std_string) (c : client) : Prop :=
  (exists r, 0 <= r < 65536 /\ c = mk_client pending [mk_request byte_array r] [])
  \/ (exists r, 0 < r < 65536 /\ c = mk_client pending [] [mk_timer 500 byte_array r])
  \/ (exists p, c = mk_client p [] []).

(** What the [std::future] returned by [client::send] holds.  A promise
    that is destroyed before it was fulfilled stores the
    [std::future_error] of [broken_promise] for its future. *)
Inductive future_state : Type :=
| future_not_ready
| future_value (v : std_string)
| future_exception (e : exception)
| future_broken_promise.

(** The owners of the promise once [client::send] has returned: the
    promise is held by [boost::shared_ptr], and the copies are the ones
    captured by the response callback of each request in the queue and
    by the wait handler of each timer.  A closure that has run, or that
    is dropped, gives its copy up. *)
Definition promise_owners (c : client) : nat :=
  (length (request_queue_ c) + length (timers c))%nat.

Definition future_of (c : client) : future_state :=
  match promise c with
  | has_value v => future_value v
  | has_exception e => future_exception e
  | pending =>
      match promise_owners c with
      | O => future_broken_promise
      | S _ => future_not_ready
      end
  end.



(** The strings of the tutorial. *)
Definition foo : std_string := [x66; x6f; x6f].
Definition bar : std_string := [x62; x61; x72].

(** The completions of attempts that fail one after the other, each
    followed by a wait of the back-off timer that completes without
    error. *)
Definition failed_attempts (errors : list error_code) : list event :=
  flat_map (fun e => [response_arrives (Some e) []; wait_completes None]) errors.

Definition is_response (e : event) : bool :=
  match e with
  | response_arrives _ _ => true
  | wait_completes _ => false
  end.

(** The calls of the response callback in a trace: the attempts made. *)
Definition attempts (trace : list event) : nat :=
  length (filter is_response trace).

(** The attempts that can still be made: a request with [r] retries
    stands for [r + 1] of them, a timer with [r] retries for [r]. *)
Definition attempts_left (c : client) : Z :=
  fold_right (fun r acc => request_retries r + 1 + acc) 0 (request_queue_ c)
  + fold_right (fun t acc => timer_retries t + acc) 0 (timers c).

End Client.

(* ================================================================= *)
(** ** detail/tcp_connection.cpp *)

Module TcpConnection.

(** What a member function gives: the connection after it, or the
    failure that stops it.

    Modelled from the spec: the macro [PAXOS_ASSERT] is defined in a
    header that is not part of the given sources; following the
    specification (section 7), an assertion violation terminates the
    process.  [out_of_range] is what [std::string::substr] throws for a
    position behind the end. *)
Inductive outcome (A : Type) : Type :=
| returned (a : A)
| assertion_failed
| out_of_range
| not_enabled.

Arguments returned {A} a.
Arguments assertion_failed {A}.
Arguments out_of_range {A}.
Arguments not_enabled {A}.

(** The connection.  [outstanding_writes] are the [async_write]
    operations that have not completed, each with the bytes that
    [boost::asio::buffer (write_buffer_)] referred to when [start_write]
    ran; [peer_received] are the bytes the socket has carried to the
    other end as long as the characters of [write_buffer_] stay where
    they were when the write was started.  This module follows the
    control flow and the lengths; the module [TcpStorage] below follows
    the storage the outstanding write points into. *)
Record tcp_connection : Type := mk_connection {
  write_buffer_ : std_string;
  outstanding_writes : list std_string;
  peer_received : std_string
}.

Definition create : tcp_connection := mk_connection [] [] [].

(** [tcp_connection::start_write] *)
Definition start_write (c : tcp_connection) : outcome tcp_connection :=
  match write_buffer_ c with
  | [] => assertion_failed
  | _ :: _ =>
      returned (mk_connection (write_buffer_ c)
                              (outstanding_writes c ++ [write_buffer_ c])
                              (peer_received c))
  end.

(** [tcp_connection::write] *)
Definition write (message : std_string) (c : tcp_connection) : outcome tcp_connection :=
  match write_buffer_ c with
  | [] =>
      start_write (mk_connection message (outstanding_writes c) (peer_received c))
  | _ :: _ =>
      returned (mk_connection (write_buffer_ c ++ message)
                              (outstanding_writes c)
                              (peer_received c))
  end.

(** [std::string::substr (pos)] *)
Definition substr (s : std_string) (pos : nat) : option std_string :=
  if (pos <=? length s)%nat then Some (skipn pos s) else None.

(** [tcp_connection::handle_write] *)
Definition handle_write (error : system_error_code) (bytes_transferred : nat)
  (c : tcp_connection) : outcome tcp_connection :=
  match substr (write_buffer_ c) bytes_transferred with
  | None => out_of_range
  | Some rest =>
      let c' := mk_connection rest (outstanding_writes c) (peer_received c) in
      match rest with
      | [] => returned c'
      | _ :: _ => start_write c'
      end
  end.

Definition is_error (error : system_error_code) : bool :=
  match error with
  | Some _ => true
  | None => false
  end.

(** The events on a connection: a caller calls [write]; the oldest
    outstanding [async_write] completes.  [boost::asio::async_write]
    completes when all the bytes of its buffer are written or when an
    error occurs; the bytes it transferred have reached the peer, and
    [handle_write] is called with their number. *)
Inductive event : Type :=
| call_write (message : std_string)
| write_completes (error : system_error_code) (bytes_transferred : nat).

Definition step (c : tcp_connection) (e : event) : outcome tcp_connection :=
  match e with
  | call_write message => write message c
  | write_completes error bytes_transferred =>
      match outstanding_writes c with
      | [] => not_enabled
      | view :: others =>
          if (bytes_transferred <=? length view)%nat
             && (is_error error || (bytes_transferred =? length view)%nat)
          then handle_write error bytes_transferred
                 (mk_connection (write_buffer_ c) others
                                (peer_received c ++ firstn bytes_transferred view))
          else not_enabled
      end
  end.

Fixpoint run (c : tcp_connection) (trace : list event) : outcome tcp_connection :=
  match trace with
  | [] => returned c
  | e :: trace' =>
      match step c e with
      | returned c' => run c' trace'
      | assertion_failed => assertion_failed
      | out_of_range => out_of_range
      | not_enabled => not_enabled
      end
  end.

(** The messages of the [write] calls of a trace, in call order. *)
Fixpoint written (trace : list event) : std_string :=
  match trace with
  | [] => []
  | call_write message :: trace' => message ++ written trace'
  | write_completes _ _ :: trace' => written trace'
  end.

(** The relation between the buffer and the outstanding writes: no
    write is outstanding and the buffer is empty, or one write is
    outstanding and the bytes it refers to are a non-empty front part of
    the buffer. *)
Definition well_formed (c : tcp_connection) : Prop :=
  match outstanding_writes c with
  | [] => write_buffer_ c = []
  | [view] => view <> [] /\ exists rest, write_buffer_ c = view ++ rest
  | _ :: _ :: _ => False
  end.

(** The message an event adds to the connection. *)
Definition message_of (e : event) : std_string :=
  match e with
  | call_write message => message
  | write_completes _ _ => []
  end.

(** Two frames for the examples. *)
Definition ping : std_string := [x70; x69; x6e; x67].
Definition pong : std_string := [x70; x6f; x6e; x67].

(** A call of [write] with an empty message. *)
Definition is_empty_write (e : event) : bool :=
  match e with
  | call_write [] => true
  | _ => false
  end.

End TcpConnection.

(* ================================================================= *)
(** ** detail/protocol/protocol.cpp *)

Module Protocol.

(** Modelled from the spec: [command.hpp] is not part of the given
    sources.  A command is a tagged message with a type discriminator
    and an opaque payload; the fields are the ones the sources use
    ([set_type], [set_workload], [type ()]) and the enumeration is the
    one of the specification. *)
Inductive command_type : Type :=
| type_handshake_start
| type_handshake_response
| type_leader_claim
| type_leader_announce
| type_request_initiate
| type_prepare
| type_promise
| type_accept
| type_accepted
| type_request_response
| type_error.

Record command : Type := mk_command {
  type : command_type;
  workload : std_string
}.

(** Modelled from the spec: [util/conversion.hpp] is not part of the
    given sources.  The length prefix is four bytes in one byte order,
    the same on all nodes; which one is left open, so the order is a
    parameter of [to_byte_array] and [from_byte_array]. *)
Inductive byte_order : Type :=
| big_endian
| little_endian.

Definition byte_of_Z (z : Z) : byte :=
  match Byte.of_N (Z.to_N (z mod 256)) with
  | Some b => b
  | None => x00
  end.

Definition Z_of_byte (b : byte) : Z := Z.of_N (Byte.to_N b).

Definition little_endian_bytes (z : Z) : std_string :=
  [byte_of_Z z; byte_of_Z (z / 256); byte_of_Z (z / 65536); byte_of_Z (z / 16777216)].

Definition little_endian_value (raw : std_string) : Z :=
  fold_right (fun b acc => Z_of_byte b + 256 * acc) 0 raw.

Definition to_byte_array (order : byte_order) (size : Z) : std_string :=
  match order with
  | little_endian => little_endian_bytes size
  | big_endian => rev (little_endian_bytes size)
  end.

Definition from_byte_array (order : byte_order) (raw : std_string) : Z :=
  uint32 (little_endian_value
            match order with
            | little_endian => raw
            | big_endian => rev raw
            end).

(** The callbacks given to [read_command]: the one [new_connection] and
    [handle_command] bind, and the callbacks of callers outside this
    file, known by a number. *)
Inductive read_command_callback_type : Type :=
| bound_handle_command
| external_callback (id : nat).

(** The completion handlers [read_command] and [read_command_parse_size]
    bind for [boost::asio::async_read]. *)
Inductive read_handler : Type :=
| bound_read_command_parse_size (callback : read_command_callback_type)
| bound_read_command_parse_command (callback : read_command_callback_type).

(** What a member function of [protocol] can do to the objects around
    it, in the order it does it. *)
Inductive action : Type :=
| handshake_start
| quorum_reset_state
| elect_leader_start
| announce_leadership_start
| heartbeat_timer_expires_from_now (milliseconds : Z)
| heartbeat_timer_async_wait
| receive_handshake_start (c : command)
| receive_leader_claim (c : command)
| receive_leader (c : command)
| call_external_callback (id : nat) (c : command)
| new_char_array (size : Z)
| async_read (size : Z) (handler : read_handler)
| cancel_timeout
| connection_write (buffer : std_string)
| connection_close
| quorum_mark_dead
| warn.

(** How a member function ends.

    Modelled from the spec: [PAXOS_THROW] and [PAXOS_ASSERT] are macros
    of a header that is not part of the given sources; the first throws
    its argument, a violation of the second terminates the process. *)
Inductive outcome (A : Type) : Type :=
| returned (a : A)
| thrown (e : exception)
| assertion_failed.

Arguments returned {A} a.
Arguments thrown {A} e.
Arguments assertion_failed {A}.

(** [boost::asio::async_read] into a buffer of [size] bytes completes
    when the buffer is full, or with an error and the bytes read until
    then; a stream that ends before that is the error [eof].  The result
    is the error code, the bytes put into the buffer and the rest of the
    stream. *)
Definition complete_read (size : Z) (incoming : std_string)
  : system_error_code * std_string * std_string :=
  if (Z.to_nat size <=? length incoming)%nat
  then (None, firstn (Z.to_nat size) incoming, skipn (Z.to_nat size) incoming)
  else (Some eof, incoming, []).

(** The reads a list of actions has started. *)
Definition issued_reads (l : list action) : list (Z * read_handler) :=
  flat_map (fun a => match a with
                     | async_read size handler => [(size, handler)]
                     | _ => []
                     end) l.

(** The bytes a list of actions has given to [tcp_connection::write]. *)
Definition written (l : list action) : std_string :=
  flat_map (fun a => match a with
                     | connection_write buffer => buffer
                     | _ => []
                     end) l.

(** The commands a list of actions has given to external callbacks. *)
Definition delivered (l : list action) : list command :=
  flat_map (fun a => match a with
                     | call_external_callback _ c => [c]
                     | _ => []
                     end) l.

Section WithQuorum.

(** The quorum and the three sub-protocols ([handshake_],
    [elect_leader_], [announce_leadership_]) are not part of the given
    sources: the quorum is a state of any type, its two queries are
    functions of it, and every call into it or into a sub-protocol is
    a change of that state. *)
Variable quorum : Type.

(** A computation reads the quorum and gives the actions it performed,
    how it ended and the quorum after it. *)
Definition M (A : Type) : Type := quorum -> list action * outcome A * quorum.

Definition ret {A : Type} (a : A) : M A :=
  fun q => ([], returned a, q).

Definition bind {A B : Type} (m : M A) (k : A -> M B) : M B :=
  fun q =>
    match m q with
    | (l, returned a, q') =>
        match k a q' with
        | (l', r, q'') => (l ++ l', r, q'')
        end
    | (l, thrown e, q') => (l, thrown e, q')
    | (l, assertion_failed, q') => (l, assertion_failed, q')
    end.

Local Notation "x <- m ;; k" := (bind m (fun x => k))
  (at level 61, m at next level, right associativity).
Local Notation "m ;; k" := (bind m (fun _ => k))
  (at level 61, right associativity).

Definition perform (a : action) : M unit :=
  fun q => ([a], returned tt, q).

Definition call (change : quorum -> quorum) (a : action) : M unit :=
  fun q => ([a], returned tt, change q).

Definition ask (query : quorum -> bool) : M bool :=
  fun q => ([], returned (query q), q).

Definition PAXOS_THROW {A : Type} (e : exception) : M A :=
  fun q => ([], thrown e, q).

Definition PAXOS_ASSERT (condition : bool) : M unit :=
  fun q => ([], if condition then returned tt else assertion_failed, q).

Definition PAXOS_WARN : M unit := perform warn.

Definition actions {A : Type} (r : list action * outcome A * quorum) : list action :=
  fst (fst r).

Definition ending {A : Type} (r : list action * outcome A * quorum) : outcome A :=
  snd (fst r).

Definition quorum_after {A : Type} (r : list action * outcome A * quorum) : quorum :=
  snd r.

(** *** The heartbeat *)

Variables needs_new_leader we_are_the_leader : quorum -> bool.
Variables handshake_starts reset_state elect_leader_starts
          announce_leadership_starts : quorum -> quorum.

(** [paxos::configuration::heartbeat_interval], in milliseconds. *)
Variable heartbeat_interval : Z.

(** [protocol::heartbeat] *)
Definition heartbeat : M unit :=
  call handshake_starts handshake_start ;;
  new_leader <- ask needs_new_leader ;;
  (if new_leader
   then call reset_state quorum_reset_state ;;
        call elect_leader_starts elect_leader_start
   else ret tt) ;;
  leader <- ask we_are_the_leader ;;
  (if leader
   then call announce_leadership_starts announce_leadership_start
   else ret tt) ;;
  perform (heartbeat_timer_expires_from_now heartbeat_interval) ;;
  perform heartbeat_timer_async_wait.

(** [protocol::bootstrap] *)
Definition bootstrap : M unit := heartbeat.

(** *** Commands *)

Variable order : byte_order.

(** [command::to_string] and [command::from_string] are not part of the
    given sources. *)
Variable to_string : command -> std_string.
Variable from_string : std_string -> command.

(** What the receivers of the sub-protocols and the callbacks of other
    callers do to the quorum.  They are not part of the given sources;
    what they may do to the connection (start a read or a write of
    their own, close it) is not followed here. *)
Variables handshake_receives leader_claim_receives leader_receives :
  command -> quorum -> quorum.
Variable external_callback_runs : nat -> command -> quorum -> quorum.

(** [protocol::write_command] *)
Definition write_command (c : command) : M unit :=
  let binary_string := to_string c in
  let size := uint32 (Z.of_nat (length binary_string)) in
  let buffer := to_byte_array order size ++ binary_string in
  perform (connection_write buffer).

(** [protocol::initiate_request] *)
Definition initiate_request (byte_array : std_string) : M unit :=
  write_command (mk_command type_request_initiate byte_array).

(** [protocol::read_command] *)
Definition read_command (callback : read_command_callback_type) : M unit :=
  perform (new_char_array 4) ;;
  perform (async_read 4 (bound_read_command_parse_size callback)).

(** [protocol::read_command_parse_size] *)
Definition read_command_parse_size (error : system_error_code)
  (bytes_transferred : nat) (bytes_buffer : std_string)
  (callback : read_command_callback_type) : M unit :=
  match error with
  | Some _ => PAXOS_WARN
  | None =>
      PAXOS_ASSERT (bytes_transferred =? 4)%nat ;;
      let bytes_raw := firstn 4 bytes_buffer in
      let bytes := from_byte_array order bytes_raw in
      perform (new_char_array bytes) ;;
      perform (async_read bytes (bound_read_command_parse_command callback))
  end.

(** [protocol::handle_command] *)
Definition handle_command (c : command) : M unit :=
  let callback := bound_handle_command in
  match type c with
  | type_handshake_start =>
      call (handshake_receives c) (receive_handshake_start c)
  | type_leader_claim =>
      call (leader_claim_receives c) (receive_leader_claim c)
  | type_leader_announce =>
      call (leader_receives c) (receive_leader c)
  | _ => PAXOS_THROW protocol_error
  end ;;
  read_command callback.

(** The call of the callback a [read_command_callback_type] holds. *)
Definition invoke (callback : read_command_callback_type) (c : command) : M unit :=
  match callback with
  | bound_handle_command => handle_command c
  | external_callback id =>
      call (external_callback_runs id c) (call_external_callback id c)
  end.

(** [protocol::read_command_parse_command] *)
Definition read_command_parse_command (error : system_error_code)
  (bytes_transferred : nat) (buffer : std_string)
  (callback : read_command_callback_type) : M unit :=
  perform cancel_timeout ;;
  match error with
  | Some _ => PAXOS_WARN
  | None =>
      let byte_array := firstn bytes_transferred buffer in
      invoke callback (from_string byte_array)
  end.

(** [protocol::new_connection] *)
Definition new_connection : M unit := read_command bound_handle_command.

(** *** The io_service on the reading side of a connection *)

(** The dispatch of a completed [async_read] to the handler bound to
    it. *)
Definition run_handler (handler : read_handler) (error : system_error_code)
  (bytes_transferred : nat) (buffer : std_string) : M unit :=
  match handler with
  | bound_read_command_parse_size callback =>
      read_command_parse_size error bytes_transferred buffer callback
  | bound_read_command_parse_command callback =>
      read_command_parse_command error bytes_transferred buffer callback
  end.

(** The io_service with one connection: the bytes the peer has sent and
    that no read has taken yet, the reads that have not completed, the
    actions performed so far, the quorum, and how the last handler
    ended (an exception that leaves a handler leaves
    [io_service::run]). *)
Record io_service : Type := mk_io_service {
  incoming : std_string;
  outstanding_reads : list (Z * read_handler);
  performed : list action;
  quorum_ : quorum;
  last_ending : outcome unit
}.

(** A member function called from outside the handlers. *)
Definition post (m : M unit) (incoming : std_string) (q : quorum) : io_service :=
  match m q with
  | (l, r, q') => mk_io_service incoming (issued_reads l) l q' r
  end.

(** The oldest outstanding read completes and its handler runs. *)
Definition poll_one (s : io_service) : io_service :=
  match last_ending s, outstanding_reads s with
  | returned _, (size, handler) :: others =>
      match complete_read size (incoming s) with
      | (error, buffer, incoming') =>
          match run_handler handler error (length buffer) buffer (quorum_ s) with
          | (l, r, q') =>
              mk_io_service incoming' (others ++ issued_reads l)
                            (performed s ++ l) q' r
          end
      end
  | _, _ => s
  end.

Fixpoint poll (fuel : nat) (s : io_service) : io_service :=
  match fuel with
  | O => s
  | S fuel' => poll fuel' (poll_one s)
  end.

(** The frame [write_command] hands to the connection. *)
Definition encode (c : command) (q : quorum) : std_string :=
  written (actions (write_command c q)).

(** The commands a reader with the callback [external_callback id]
    gets out of a stream, with the bytes it leaves. *)
Definition decode (fuel : nat) (id : nat) (stream : std_string) (q : quorum)
  : list command * std_string :=
  let s := poll fuel (post (read_command (external_callback id)) stream q) in
  (delivered (performed s), incoming s).

(** The heartbeat timer expiring [n] times, one tick after the other. *)
Fixpoint ticks (n : nat) : M unit :=
  match n with
  | O => ret tt
  | S n' => heartbeat ;; ticks n'
  end.

(** What the receiver [handle_command] chooses for a command does to the
    quorum. *)
Definition receiver_change (c : command) : quorum -> quorum :=
  match type c with
  | type_handshake_start => handshake_receives c
  | type_leader_claim => leader_claim_receives c
  | type_leader_announce => leader_receives c
  | _ => fun q => q
  end.

End WithQuorum.

Arguments actions {quorum A} r.
Arguments ending {quorum A} r.
Arguments quorum_after {quorum A} r.

(** The commands a list of actions has given to the receivers of the
    sub-protocols. *)
Definition dispatched (l : list action) : list command :=
  flat_map (fun a => match a with
                     | receive_handshake_start c => [c]
                     | receive_leader_claim c => [c]
                     | receive_leader c => [c]
                     | _ => []
                     end) l.

Definition is_handshake_start (a : action) : bool :=
  match a with handshake_start => true | _ => false end.

Definition is_reset_state (a : action) : bool :=
  match a with quorum_reset_state => true | _ => false end.

Definition is_elect_leader_start (a : action) : bool :=
  match a with elect_leader_start => true | _ => false end.

Definition is_timer_wait (a : action) : bool :=
  match a with heartbeat_timer_async_wait => true | _ => false end.

(** The command types [handle_command] has a case for. *)
Definition recognized (t : command_type) : bool :=
  match t with
  | type_handshake_start | type_leader_claim | type_leader_announce => true
  | _ => false
  end.

(** Modelled from the spec: [command::to_string] and
    [command::from_string] are not part of the given sources.  The body
    of a command carries a type discriminator and the fields of the
    type; this serializer, used where a statement needs a concrete one,
    writes one byte for the type and then the workload. *)
Definition type_tag (t : command_type) : byte :=
  match t with
  | type_handshake_start => x01
  | type_handshake_response => x02
  | type_leader_claim => x03
  | type_leader_announce => x04
  | type_request_initiate => x05
  | type_prepare => x06
  | type_promise => x07
  | type_accept => x08
  | type_accepted => x09
  | type_request_response => x0a
  | type_error => x00
  end.

Definition tag_type (b : byte) : command_type :=
  match b with
  | x01 => type_handshake_start
  | x02 => type_handshake_response
  | x03 => type_leader_claim
  | x04 => type_leader_announce
  | x05 => type_request_initiate
  | x06 => type_prepare
  | x07 => type_promise
  | x08 => type_accept
  | x09 => type_accepted
  | x0a => type_request_response
  | _ => type_error
  end.

Definition tagged_to_string (c : command) : std_string :=
  type_tag (type c) :: workload c.

Definition tagged_from_string (s : std_string) : command :=
  match s with
  | [] => mk_command type_error []
  | b :: w => mk_command (tag_type b) w
  end.

(** A quorum without state, whose receivers change nothing. *)
Definition no_change : command -> unit -> unit := fun _ q => q.
Definition no_external_change : nat -> command -> unit -> unit := fun _ _ q => q.

(** A request whose workload has 4 GiB - 1 bytes; with its type byte the
    serialized body has 4 GiB. *)
Definition four_gibibyte_request : command :=
  mk_command type_request_initiate (repeat x00 (Z.to_nat 4294967295)).

(** The frame limit as the specification words it, for a maximum frame
    size: a length prefix that decodes to more than the maximum makes
    [read_command_parse_size] close the connection and mark the peer
    dead, and no read is started. *)
Definition rejects_frames_above (maximum : Z) : Prop :=
  forall (quorum : Type) (order : byte_order) (bytes_buffer : std_string)
         (callback : read_command_callback_type) (q : quorum),
    maximum < from_byte_array order (firstn 4 bytes_buffer) ->
    let r := read_command_parse_size quorum order None 4 bytes_buffer callback q in
    In connection_close (actions r)
    /\ In quorum_mark_dead (actions r)
    /\ issued_reads (actions r) = [].

(** The handling of protocol errors as the specification words it: a
    command of a type the dispatcher has no case for closes the
    connection and marks the peer dead, and the handler returns. *)
Definition unknown_type_closes_connection : Prop :=
  forall (quorum : Type)
         (handshake_receives leader_claim_receives leader_receives :
            command -> quorum -> quorum)
         (c : command) (q : quorum),
    recognized (type c) = false ->
    let r := handle_command quorum handshake_receives leader_claim_receives
                            leader_receives c q in
    In connection_close (actions r)
    /\ In quorum_mark_dead (actions r)
    /\ ending r = returned tt.

(** The round trip as the specification words it, for every command of
    every serializer that has the round trip itself: the prefix of the
    frame is the byte count of the body, and the reader gets the command
    back. *)
Definition frames_round_trip : Prop :=
  forall (quorum : Type) (order : byte_order)
         (to_string : command -> std_string)
         (from_string : std_string -> command)
         (handshake_receives leader_claim_receives leader_receives :
            command -> quorum -> quorum)
         (external_callback_runs : nat -> command -> quorum -> quorum)
         (c : command) (id : nat) (q : quorum),
    (forall c', from_string (to_string c') = c') ->
    from_byte_array order (firstn 4 (encode quorum order to_string c q))
    = Z.of_nat (length (to_string c))
    /\ exists fuel,
        decode quorum order from_string handshake_receives
               leader_claim_receives leader_receives external_callback_runs
               fuel id (encode quorum order to_string c q) q
        = ([c], []).

End Protocol.

(* ================================================================= *)
(** ** detail/tcp_connection.cpp, with the storage of the buffer *)

Module TcpStorage.

(** A [std::string] in memory: its characters, the capacity of the
    allocation that holds them, and the allocation [data ()] points to.
    Allocations are numbered in the order they are made. *)
Record string_ : Type := mk_string {
  characters : std_string;
  capacity : nat;
  data : nat
}.

(** What [boost::asio::buffer (write_buffer_)] is: the pointer [data ()]
    and the size, not the characters. *)
Record const_buffer : Type := mk_buffer {
  buffer_data : nat;
  buffer_size : nat
}.

Record tcp_connection : Type := mk_connection {
  write_buffer_ : string_;
  outstanding_writes : list const_buffer;
  peer_received : std_string;
  allocations : nat
}.

Inductive outcome (A : Type) : Type :=
| returned (a : A)
| assertion_failed
| out_of_range
| not_enabled.

Arguments returned {A} a.
Arguments assertion_failed {A}.
Arguments out_of_range {A}.
Arguments not_enabled {A}.

(** The events on a connection.  A completion comes with the bytes the
    socket found where the buffer of the write points to, for the case
    that the allocation is no longer the one of [write_buffer_]: what is
    read there is not determined by the program. *)
Inductive event : Type :=
| call_write (message : std_string)
| write_completes (error : system_error_code) (bytes_transferred : nat)
                  (found : std_string).

Section WithLibrary.

(** The capacities are chosen by the library: the capacity of an empty
    string, and the capacity of a new allocation given the capacity of
    the old one and the number of characters needed. *)
Variable initial_capacity : nat.
Variable new_capacity : nat -> nat -> nat.

(** [tcp_connection::create]: an empty [write_buffer_] in the first
    allocation. *)
Definition create : tcp_connection :=
  mk_connection (mk_string [] initial_capacity 0) [] [] 1.

(** [write_buffer_ = message]: the characters are copied into the
    allocation when they fit, into a new one when they do not. *)
Definition assign (message : std_string) (c : tcp_connection) : tcp_connection :=
  let b := write_buffer_ c in
  if (length message <=? capacity b)%nat
  then mk_connection (mk_string message (capacity b) (data b))
                     (outstanding_writes c) (peer_received c) (allocations c)
  else mk_connection (mk_string message
                                (new_capacity (capacity b) (length message))
                                (allocations c))
                     (outstanding_writes c) (peer_received c)
                     (S (allocations c)).

(** [write_buffer_ += message]: the characters are added in place when
    the capacity is enough; when it is not, the string moves to a new
    allocation and the old one is released. *)
Definition append (message : std_string) (c : tcp_connection) : tcp_connection :=
  let b := write_buffer_ c in
  let needed := (length (characters b) + length message)%nat in
  if (needed <=? capacity b)%nat
  then mk_connection (mk_string (characters b ++ message) (capacity b) (data b))
                     (outstanding_writes c) (peer_received c) (allocations c)
  else mk_connection (mk_string (characters b ++ message)
                                (new_capacity (capacity b) needed)
                                (allocations c))
                     (outstanding_writes c) (peer_received c)
                     (S (allocations c)).

(** [tcp_connection::start_write] *)
Definition start_write (c : tcp_connection) : outcome tcp_connection :=
  match characters (write_buffer_ c) with
  | [] => assertion_failed
  | _ :: _ =>
      returned
        (mk_connection (write_buffer_ c)
           (outstanding_writes c
              ++ [mk_buffer (data (write_buffer_ c))
                            (length (characters (write_buffer_ c)))])
           (peer_received c) (allocations c))
  end.

(** [tcp_connection::write] *)
Definition write (message : std_string) (c : tcp_connection) : outcome tcp_connection :=
  match characters (write_buffer_ c) with
  | [] => start_write (assign message c)
  | _ :: _ => returned (append message c)
  end.

(** [tcp_connection::handle_write].  [substr] makes a new string, whose
    allocation [write_buffer_] takes over. *)
Definition handle_write (error : system_error_code) (bytes_transferred : nat)
  (c : tcp_connection) : outcome tcp_connection :=
  let b := write_buffer_ c in
  if (bytes_transferred <=? length (characters b))%nat
  then
    let rest := skipn bytes_transferred (characters b) in
    let c' := mk_connection
                (mk_string rest (new_capacity 0 (length rest)) (allocations c))
                (outstanding_writes c) (peer_received c) (S (allocations c)) in
    match rest with
    | [] => returned c'
    | _ :: _ => start_write c'
    end
  else out_of_range.

(** The oldest outstanding write completes.  When its buffer still
    points into the allocation of [write_buffer_], the bytes sent are the
    first characters of the string; when that allocation was released,
    they are the bytes found there. *)
Definition step (c : tcp_connection) (e : event) : outcome tcp_connection :=
  match e with
  | call_write message => write message c
  | write_completes error bytes_transferred found =>
      match outstanding_writes c with
      | [] => not_enabled
      | view :: others =>
          let in_place := (buffer_data view =? data (write_buffer_ c))%nat in
          if (bytes_transferred <=? buffer_size view)%nat
             && (TcpConnection.is_error error
                 || (bytes_transferred =? buffer_size view)%nat)
             && (in_place || (length found =? bytes_transferred)%nat)
          then handle_write error bytes_transferred
                 (mk_connection (write_buffer_ c) others
                    (peer_received c
                       ++ (if in_place
                           then firstn bytes_transferred
                                       (characters (write_buffer_ c))
                           else found))
                    (allocations c))
          else not_enabled
      end
  end.

Fixpoint run (c : tcp_connection) (trace : list event) : outcome tcp_connection :=
  match trace with
  | [] => returned c
  | e :: trace' =>
      match step c e with
      | returned c' => run c' trace'
      | assertion_failed => assertion_failed
      | out_of_range => out_of_range
      | not_enabled => not_enabled
      end
  end.

(** Messages written one by one, each after the write of the one before
    it has completed. *)
Definition one_by_one (messages : list std_string) : list event :=
  flat_map (fun message =>
              [call_write message; write_completes None (length message) []])
           messages.

End WithLibrary.

(** The capacities of a library that keeps up to fifteen characters
    inside the string object and at least doubles the capacity when it
    allocates. *)
Definition doubling (old needed : nat) : nat := Nat.max needed (2 * old).

(** A message of twelve bytes. *)
Definition twelve : std_string :=
  TcpConnection.pong ++ TcpConnection.ping ++ TcpConnection.pong.

End TcpStorage.

(* ================================================================= *)
(** * Properties *)

(** ** The client: delivery of the result and retries *)

Module ClientFacts.

Import Client.

Lemma uint16_pred (r : Z) : 0 < r < 65536 -> uint16 (r - 1) = r - 1.
Proof. intros H. unfold uint16. apply Z.mod_small. lia. Qed.

Lemma quiescent_refuses (c : client) (e : event) :
  quiescent c = true -> step c e = not_enabled.
Proof.
  destruct c as [p q ts]. unfold quiescent. simpl.
  destruct q; destruct ts; try discriminate.
  intros _. destruct e; reflexivity.
Qed.

Lemma quiescent_stays (c c' : client) (trace : list event) :
  quiescent c = true -> run c trace = returned c' -> trace = [] /\ c' = c.
Proof.
  intros Hq. destruct trace as [|e trace]; simpl.
  - intros H. injection H as <-. split; reflexivity.
  - rewrite (quiescent_refuses c e Hq). discriminate.
Qed.

Ltac unfold_measure :=
  unfold measure, do_request;
  cbn [fold_right request_queue_ timers request_retries timer_retries app
       promise quiescent fulfilled is_cancellation].

(** One event from a state of a [send]. *)
Lemma step_in_flight (byte_array : std_string) (c : client) (e : event) :
  in_flight byte_array c ->
  step c e <> future_error /\
  forall c', step c e = returned c' ->
    in_flight byte_array c'
    /\ measure c' < measure c
    /\ (quiescent c' = true ->
        if is_cancellation e then promise c' = pending else fulfilled c' = true)
    /\ (quiescent c' = false -> is_cancellation e = false).
Proof.
  intros [(r & Hr & ->) | [(r & Hr & ->) | (p & ->)]].
  - destruct e as [[err|] response | error]; cbn -[measure Z.mul].
    + destruct (0 <? r) eqn:Hpos; cbn -[measure Z.mul].
      * split; [discriminate|]. intros c' H. injection H as <-.
        apply Z.ltb_lt in Hpos. unfold_measure.
        split; [|repeat split; try lia; try discriminate].
        right; left. exists r. split; [lia | reflexivity].
      * split; [discriminate|]. intros c' H. injection H as <-.
        unfold_measure.
        split; [|repeat split; try lia; try discriminate].
        right; right. eexists; reflexivity.
    + split; [discriminate|]. intros c' H. injection H as <-.
      unfold_measure.
      split; [|repeat split; try lia; try discriminate].
      right; right. eexists; reflexivity.
    + split; discriminate.
  - destruct e as [err response | [ec|]]; cbn -[measure Z.mul].
    + split; discriminate.
    + split; [discriminate|]. intros c' H. injection H as <-.
      unfold_measure.
      split; [|repeat split; try lia; try discriminate].
      right; right. eexists; reflexivity.
    + split; [discriminate|]. intros c' H. injection H as <-.
      unfold_measure. rewrite (uint16_pred r Hr).
      split; [|repeat split; try lia; try discriminate].
      left. exists (r - 1). split; [lia | reflexivity].
  - destruct e; cbn -[measure Z.mul]; split; discriminate.
Qed.

(** Every run from a state of a [send]. *)
Lemma run_in_flight (byte_array : std_string) (trace : list event) :
  forall c, in_flight byte_array c ->
  run c trace <> future_error /\
  forall c', run c trace = returned c' ->
    in_flight byte_array c'
    /\ Z.of_nat (length trace) + measure c' <= measure c
    /\ (quiescent c = false -> quiescent c' = true ->
        if existsb is_cancellation trace
        then promise c' = pending else fulfilled c' = true).
Proof.
  induction trace as [|e trace IH]; intros c Hc.
  - simpl. split; [discriminate|]. intros c' H. injection H as <-.
    repeat split; [assumption | lia |]. intros H1 H2. congruence.
  - destruct (step_in_flight byte_array c e Hc) as [Hne Hstep].
    cbn [run]. destruct (step c e) as [c1| |] eqn:Hs.
    + destruct (Hstep c1 eq_refl) as (Hc1 & Hm & Hq & Hnq).
      destruct (IH c1 Hc1) as [IHne IHrun]. split; [assumption|].
      intros c' Hrun. destruct (IHrun c' Hrun) as (Hc' & Hlen & Hfin).
      repeat split; [assumption | cbn [length]; lia |].
      intros _ Hq'. cbn [existsb].
      destruct (quiescent c1) eqn:Hq1.
      * destruct (quiescent_stays c1 c' trace Hq1 Hrun) as [-> ->].
        cbn [existsb]. rewrite orb_false_r. apply Hq. reflexivity.
      * rewrite (Hnq eq_refl). cbn [orb]. apply Hfin; [reflexivity | assumption].
    + congruence.
    + split; discriminate.
Qed.

Lemma send_in_flight (byte_array : std_string) (retries : Z) :
  0 <= retries < 65536 -> in_flight byte_array (send byte_array retries).
Proof. intros H. left. exists retries. split; [assumption | reflexivity]. Qed.

Lemma send_measure (byte_array : std_string) (retries : Z) :
  measure (send byte_array retries) = 2 * retries + 1.
Proof. unfold measure, send, do_request; simpl. lia. Qed.



(** No handler ever stores [not_ready] in the promise. *)
Lemma step_keeps_not_ready_out (c c' : client) (e : event) :
  promise c <> has_exception not_ready ->
  step c e = returned c' ->
  promise c' <> has_exception not_ready.
Proof.
  destruct c as [p q ts]. intros Hp.
  destruct e as [[err|] response | [ec|]]; cbn.
  - destruct q as [|r q]; [discriminate|].
    unfold response_callback, set_exception; cbn.
    destruct (0 <? request_retries r).
    + intros H; injection H as <-. exact Hp.
    + destruct p; try discriminate. intros H; injection H as <-. discriminate.
  - destruct q as [|r q]; [discriminate|].
    unfold response_callback, set_value; cbn.
    destruct p; try discriminate. intros H; injection H as <-. discriminate.
  - destruct ts as [|t ts]; [discriminate|].
    intros H; injection H as <-. exact Hp.
  - destruct ts as [|t ts]; [discriminate|].
    intros H; injection H as <-. exact Hp.
Qed.

Lemma run_keeps_not_ready_out (trace : list event) :
  forall c c', promise c <> has_exception not_ready ->
  run c trace = returned c' ->
  promise c' <> has_exception not_ready.
Proof.
  induction trace as [|e trace IH]; intros c c' Hp; cbn [run].
  - intros H; injection H as <-. exact Hp.
  - destruct (step c e) as [c1| |] eqn:Hs; try discriminate.
    apply IH. exact (step_keeps_not_ready_out c c1 e Hp Hs).
Qed.



(** The three ways a request comes to rest: a reply, [request_error]
    after the last retry, and [broken_promise] should a wait complete
    with an error. *)
Lemma the_three_results :
  (match run (send foo 1)
             [response_arrives (Some error_transport) []; wait_completes None;
              response_arrives None bar] with
   | returned c => future_of c = future_value bar
   | _ => False
   end)
  /\ (match run (send foo 0) [response_arrives (Some error_transport) []] with
      | returned c => future_of c = future_exception request_error
      | _ => False
      end)
  /\ (match run (send foo 1)
                [response_arrives (Some error_transport) [];
                 wait_completes (Some operation_aborted)] with
      | returned c => future_of c = future_broken_promise
      | _ => False
      end).
Proof. repeat split. Qed.

(** C3: when the response callback of a request of a [send] is called
    with an error and the retries counter is greater than zero, exactly
    one timer is started, with an expiry of 500 ms, and nothing else
    changes; when its wait completes without error exactly one request
    with the same byte array and the counter decremented by one is
    pushed; when its wait completes with an error nothing is pushed.
    When the callback is called with an error and the counter is zero,
    the promise is fulfilled with [request_error]. *)
Theorem error_schedules_one_retry_or_request_error
  (byte_array : std_string) (retries : Z) (trace : list event) (c : client)
  (r : request) (queue : list request) (error : error_code)
  (response : std_string) :
  0 <= retries < 65536 ->
  run (send byte_array retries) trace = returned c ->
  request_queue_ c = r :: queue ->
  let waiting := mk_client pending [] [mk_timer 500 byte_array (request_retries r)] in
  (0 < request_retries r ->
   step c (response_arrives (Some error) response) = returned waiting
   /\ step waiting (wait_completes None)
      = returned (mk_client pending
                            [mk_request byte_array (request_retries r - 1)] [])
   /\ forall ec, step waiting (wait_completes (Some ec))
                 = returned (mk_client pending [] []))
  /\ (request_retries r = 0 ->
      step c (response_arrives (Some error) response)
      = returned (mk_client (has_exception request_error) [] [])).
Proof.
  intros Hr Hrun Hq waiting.
  destruct (run_in_flight byte_array trace _ (send_in_flight byte_array retries Hr))
    as [_ H].
  destruct (H c Hrun) as ([(n & Hn & ->) | [(n & Hn & ->) | (p & ->)]] & _);
    cbn in Hq; try discriminate.
  injection Hq as <- <-. subst waiting. cbn [request_retries].
  split.
  - intros Hpos. repeat split.
    + cbn. apply Z.ltb_lt in Hpos. rewrite Hpos. reflexivity.
    + cbn. unfold do_request; cbn. rewrite uint16_pred by lia. reflexivity.
  - intros ->. reflexivity.
Qed.

Lemma error_schedules_one_retry_witness :
  step (send foo 1) (response_arrives (Some error_timeout) [])
  = returned (mk_client pending [] [mk_timer 500 foo 1]).
Proof.
  refine (proj1 (proj1 (error_schedules_one_retry_or_request_error
                          foo 1 [] (send foo 1) (mk_request foo 1) []
                          error_timeout [] _ _ _) _)).
  - lia.
  - reflexivity.
  - reflexivity.
  - simpl. lia.
Defined.

(** Whatever the responses and the waits, a [send] never stores
    [not_ready] in its promise. *)
Lemma send_never_stores_not_ready (byte_array : std_string) (retries : Z)
  (trace : list event) (c : client) :
  run (send byte_array retries) trace = returned c ->
  promise c <> has_exception not_ready.
Proof.
  apply run_keeps_not_ready_out. discriminate.
Qed.

(** C4 fails on the code: a response callback called with the error of
    a quorum that is not ready starts the back-off timer when retries
    are left, and with no retries left the promise gets [request_error];
    [not_ready] is never stored. *)
Theorem not_ready_failure_is_retried :
  run (send foo 3) [response_arrives (Some error_not_ready) []]
  = returned (mk_client pending [] [mk_timer 500 foo 3])
  /\ run (send foo 0) [response_arrives (Some error_not_ready) []]
     = returned (mk_client (has_exception request_error) [] []).
Proof. split; reflexivity. Qed.

(** *** More on the retries *)

Lemma failed_attempts_run (byte_array : std_string) (errors : list error_code) :
  forall (retries : Z) (rest : list event),
  Z.of_nat (length errors) <= retries < 65536 ->
  run (mk_client pending [mk_request byte_array retries] [])
      (failed_attempts errors ++ rest)
  = run (mk_client pending
                   [mk_request byte_array (retries - Z.of_nat (length errors))] [])
        rest.
Proof.
  induction errors as [|e errors IH]; intros retries rest Hr.
  - cbn [failed_attempts flat_map app length Z.of_nat].
    rewrite Z.sub_0_r. reflexivity.
  - cbn [length] in Hr. rewrite Nat2Z.inj_succ in Hr.
    assert (Hpos : (0 <? retries) = true) by (apply Z.ltb_lt; lia).
    cbn [failed_attempts flat_map app run step request_queue_ promise timers
         request_byte_array request_retries response_callback].
    rewrite Hpos.
    cbn [app run step request_queue_ promise timers timer_byte_array
         timer_retries wait_handler].
    unfold do_request. cbn [promise request_queue_ timers app].
    rewrite uint16_pred by lia.
    fold (failed_attempts errors). rewrite IH by lia.
    cbn [length]. rewrite Nat2Z.inj_succ.
    replace (retries - 1 - Z.of_nat (length errors))
      with (retries - Z.succ (Z.of_nat (length errors))) by lia.
    reflexivity.
Qed.

(** X1: when the first attempts of a request fail, not more of them
    than there are retries, and every wait of the back-off timer
    completes without error, the response of the first attempt without
    error is the value of the promise, and nothing is left
    outstanding. *)
Theorem response_after_failed_attempts_is_delivered
  (byte_array : std_string) (retries : Z) (errors : list error_code)
  (response : std_string) :
  0 <= retries < 65536 ->
  Z.of_nat (length errors) <= retries ->
  run (send byte_array retries)
      (failed_attempts errors ++ [response_arrives None response])
  = returned (mk_client (has_value response) [] []).
Proof.
  intros Hr Hlen. unfold send, do_request. cbn [promise request_queue_ timers app].
  rewrite failed_attempts_run by lia. reflexivity.
Qed.

Lemma response_after_failed_attempts_witness :
  run (send foo 2)
      (failed_attempts [error_timeout; error_transport]
         ++ [response_arrives None bar])
  = returned (mk_client (has_value bar) [] []).
Proof.
  apply (response_after_failed_attempts_is_delivered
           foo 2 [error_timeout; error_transport] bar).
  - lia.
  - simpl. lia.
Defined.

(** X2: when as many attempts fail as there are retries, every wait
    completing without error, and the attempt after them fails too, the
    promise holds [request_error] and nothing is left outstanding: a
    request is attempted [retries + 1] times before it is given up. *)
Theorem exhausted_retries_give_request_error
  (byte_array : std_string) (retries : Z) (errors : list error_code)
  (error : error_code) (response : std_string) :
  0 <= retries < 65536 ->
  Z.of_nat (length errors) = retries ->
  run (send byte_array retries)
      (failed_attempts errors ++ [response_arrives (Some error) response])
  = returned (mk_client (has_exception request_error) [] []).
Proof.
  intros Hr Hlen. unfold send, do_request. cbn [promise request_queue_ timers app].
  rewrite failed_attempts_run by lia.
  replace (retries - Z.of_nat (length errors)) with 0 by lia. reflexivity.
Qed.

Lemma exhausted_retries_witness :
  run (send foo 2)
      (failed_attempts [error_timeout; error_transport]
         ++ [response_arrives (Some error_protocol) []])
  = returned (mk_client (has_exception request_error) [] []).
Proof.
  apply (exhausted_retries_give_request_error
           foo 2 [error_timeout; error_transport] error_protocol []).
  - lia.
  - reflexivity.
Defined.

Ltac unfold_attempts :=
  unfold attempts_left, do_request;
  cbn [fold_right request_queue_ timers request_retries timer_retries app
       promise].

Lemma step_attempts_left (byte_array : std_string) (c c' : client) (e : event) :
  in_flight byte_array c ->
  step c e = returned c' ->
  (if is_response e then 1 else 0) + attempts_left c' <= attempts_left c.
Proof.
  intros [(r & Hr & ->) | [(r & Hr & ->) | (p & ->)]].
  - destruct e as [[err|] response | error]; cbn -[attempts_left Z.add].
    + destruct (0 <? r) eqn:Hpos; cbn -[attempts_left Z.add].
      * intros H; injection H as <-. unfold_attempts. lia.
      * intros H; injection H as <-. unfold_attempts. lia.
    + intros H; injection H as <-. unfold_attempts. lia.
    + discriminate.
  - destruct e as [err response | [ec|]]; cbn -[attempts_left Z.add].
    + discriminate.
    + intros H; injection H as <-. unfold_attempts. lia.
    + intros H; injection H as <-. unfold_attempts.
      rewrite uint16_pred by lia. lia.
  - destruct e; cbn; discriminate.
Qed.

Lemma in_flight_attempts_left_nonneg (byte_array : std_string) (c : client) :
  in_flight byte_array c -> 0 <= attempts_left c.
Proof.
  intros [(r & Hr & ->) | [(r & Hr & ->) | (p & ->)]];
    unfold_attempts; lia.
Qed.

Lemma run_attempts_left (byte_array : std_string) (trace : list event) :
  forall c c', in_flight byte_array c ->
  run c trace = returned c' ->
  Z.of_nat (attempts trace) + attempts_left c' <= attempts_left c.
Proof.
  induction trace as [|e trace IH]; intros c c' Hc; cbn [run].
  - intros H; injection H as <-. unfold attempts; cbn. lia.
  - destruct (step c e) as [c1| |] eqn:Hs; try discriminate.
    intros Hrun.
    pose proof (step_attempts_left byte_array c c1 e Hc Hs) as H1.
    destruct (step_in_flight byte_array c e Hc) as [_ Hin].
    destruct (Hin c1 Hs) as (Hc1 & _).
    pose proof (IH c1 c' Hc1 Hrun) as H2.
    unfold attempts in *. cbn [filter].
    destruct (is_response e); cbn [length]; lia.
Qed.

Lemma send_attempts_left (byte_array : std_string) (retries : Z) :
  attempts_left (send byte_array retries) = retries + 1.
Proof. unfold send. unfold_attempts. lia. Qed.

(** X3: whatever the responses and the waits are, the response callback
    of a request is called at most [retries + 1] times. *)
Theorem at_most_retries_plus_one_attempts
  (byte_array : std_string) (retries : Z) (trace : list event) (c : client) :
  0 <= retries < 65536 ->
  run (send byte_array retries) trace = returned c ->
  Z.of_nat (attempts trace) <= retries + 1.
Proof.
  intros Hr Hrun.
  pose proof (run_attempts_left byte_array trace _ c
                (send_in_flight byte_array retries Hr) Hrun) as H.
  destruct (run_in_flight byte_array trace _ (send_in_flight byte_array retries Hr))
    as [_ Hin].
  destruct (Hin c Hrun) as (Hc & _).
  pose proof (in_flight_attempts_left_nonneg byte_array c Hc).
  rewrite send_attempts_left in H. lia.
Qed.

Lemma at_most_retries_plus_one_witness :
  Z.of_nat (attempts [response_arrives (Some error_timeout) [];
                      wait_completes None;
                      response_arrives (Some error_timeout) []])
  <= 1 + 1.
Proof.
  apply (at_most_retries_plus_one_attempts foo 1
           [response_arrives (Some error_timeout) []; wait_completes None;
            response_arrives (Some error_timeout) []]
           (mk_client (has_exception request_error) [] [])).
  - lia.
  - reflexivity.
Defined.

(** X4: once the promise of a request is fulfilled nothing of the
    request is outstanding, and no completion can reach it any more: no
    retry follows a delivered result. *)
Theorem fulfilled_request_is_finished
  (byte_array : std_string) (retries : Z) (trace : list event) (c : client) :
  0 <= retries < 65536 ->
  run (send byte_array retries) trace = returned c ->
  fulfilled c = true ->
  request_queue_ c = [] /\ timers c = []
  /\ forall e, step c e = not_enabled.
Proof.
  intros Hr Hrun Hf.
  destruct (run_in_flight byte_array trace _ (send_in_flight byte_array retries Hr))
    as [_ Hin].
  destruct (Hin c Hrun) as ([(r & _ & ->) | [(r & _ & ->) | (p & ->)]] & _);
    try discriminate Hf.
  repeat split. intros e. apply quiescent_refuses. reflexivity.
Qed.

Lemma fulfilled_request_witness :
  request_queue_ (mk_client (has_value bar) [] []) = []
  /\ timers (mk_client (has_value bar) [] []) = []
  /\ forall e, step (mk_client (has_value bar) [] []) e = not_enabled.
Proof.
  apply (fulfilled_request_is_finished foo 1 [response_arrives None bar]
           (mk_client (has_value bar) [] [])).
  - lia.
  - reflexivity.
  - reflexivity.
Defined.

(** X5: every retry of a request carries the byte array the request was
    sent with and a retries counter between zero and the one it was sent
    with, and every back-off timer expires after 500 ms. *)
Theorem retries_keep_byte_array_and_bounds
  (byte_array : std_string) (retries : Z) (trace : list event) (c : client) :
  0 <= retries < 65536 ->
  run (send byte_array retries) trace = returned c ->
  Forall (fun r => request_byte_array r = byte_array
                   /\ 0 <= request_retries r <= retries) (request_queue_ c)
  /\ Forall (fun t => timer_byte_array t = byte_array
                      /\ timer_expires_from_now t = 500
                      /\ 0 < timer_retries t <= retries) (timers c).
Proof.
  intros Hr Hrun.
  destruct (run_in_flight byte_array trace _ (send_in_flight byte_array retries Hr))
    as [_ Hin].
  destruct (Hin c Hrun) as (Hc & Hm & _).
  rewrite send_measure in Hm.
  destruct Hc as [(r & Hrr & ->) | [(r & Hrr & ->) | (p & ->)]];
    unfold measure in Hm; cbn [fold_right request_queue_ timers request_retries
                               timer_retries] in Hm; cbn [request_queue_ timers].
  - split; [|constructor]. constructor; [|constructor].
    cbn. split; [reflexivity | lia].
  - split; [constructor|]. constructor; [|constructor].
    cbn. repeat split; lia.
  - split; constructor.
Qed.

Lemma retries_keep_byte_array_witness :
  Forall (fun r => request_byte_array r = foo /\ 0 <= request_retries r <= 3)
         [mk_request foo 2]
  /\ Forall (fun t => timer_byte_array t = foo
                      /\ timer_expires_from_now t = 500
                      /\ 0 < timer_retries t <= 3) [].
Proof.
  apply (retries_keep_byte_array_and_bounds foo 3
           [response_arrives (Some error_timeout) []; wait_completes None]
           (mk_client pending [mk_request foo 2] [])).
  - lia.
  - reflexivity.
Defined.

End ClientFacts.

(** ** The connection: one write at a time, bytes in call order *)

Module TcpConnectionFacts.

Import TcpConnection.

Lemma create_well_formed : well_formed create.
Proof. reflexivity. Qed.

Lemma firstn_front (A : Type) (n : nat) (view rest : list A) :
  (n <= length view)%nat -> firstn n (view ++ rest) = firstn n view.
Proof.
  intros H. rewrite firstn_app.
  replace (n - length view)%nat with 0%nat by lia.
  cbn. apply app_nil_r.
Qed.

(** [write] on a connection. *)
Lemma write_well_formed (c c' : tcp_connection) (message : std_string) :
  well_formed c -> write message c = returned c' ->
  well_formed c'
  /\ peer_received c' = peer_received c
  /\ write_buffer_ c' = write_buffer_ c ++ message
  /\ outstanding_writes c'
     = match write_buffer_ c with
       | [] => [message]
       | _ :: _ => outstanding_writes c
       end.
Proof.
  destruct c as [buffer ops received]. unfold well_formed, write; cbn.
  destruct ops as [|view [|view' ops]]; [| |contradiction].
  - intros ->. unfold start_write; cbn.
    destruct message as [|b message]; [discriminate|].
    intros H; injection H as <-. cbn.
    repeat split; try discriminate. exists []. rewrite app_nil_r. reflexivity.
  - intros (Hview & rest & ->).
    destruct view as [|b view]; [contradiction|]. cbn.
    intros H; injection H as <-. cbn.
    repeat split; try discriminate.
    exists (rest ++ message). rewrite <- app_assoc. reflexivity.
Qed.

(** The completion of the outstanding write and [handle_write]. *)
Lemma completion_well_formed (c c' : tcp_connection)
  (error : system_error_code) (n : nat) :
  well_formed c -> step c (write_completes error n) = returned c' ->
  well_formed c'
  /\ peer_received c' ++ write_buffer_ c' = peer_received c ++ write_buffer_ c
  /\ write_buffer_ c' = skipn n (write_buffer_ c)
  /\ outstanding_writes c'
     = match write_buffer_ c' with
       | [] => []
       | _ :: _ => [write_buffer_ c']
       end.
Proof.
  destruct c as [buffer ops received]. unfold well_formed; cbn.
  destruct ops as [|view [|view' ops]]; [discriminate| |contradiction].
  intros (Hview & rest & ->).
  destruct ((n <=? length view)%nat
            && (is_error error || (n =? length view)%nat)) eqn:Hen;
    [|discriminate].
  apply andb_true_iff in Hen. destruct Hen as [Hn _].
  apply Nat.leb_le in Hn.
  unfold handle_write, substr; cbn.
  assert (Hlen : (n <=? length (view ++ rest))%nat = true).
  { apply Nat.leb_le. rewrite length_app. lia. }
  rewrite Hlen.
  assert (Hsplit : firstn n view ++ skipn n (view ++ rest) = view ++ rest).
  { rewrite <- (firstn_front _ n view rest Hn). apply firstn_skipn. }
  destruct (skipn n (view ++ rest)) as [|b tail] eqn:Hskip.
  - intros H; injection H as <-. cbn.
    repeat split. rewrite <- app_assoc, Hsplit. reflexivity.
  - unfold start_write; cbn. intros H; injection H as <-. cbn.
    repeat split; try discriminate.
    + exists []. rewrite app_nil_r. reflexivity.
    + rewrite <- app_assoc, Hsplit. reflexivity.
Qed.

Lemma step_well_formed (c c' : tcp_connection) (e : event) :
  well_formed c -> step c e = returned c' ->
  well_formed c'
  /\ peer_received c' ++ write_buffer_ c'
     = peer_received c ++ write_buffer_ c ++ message_of e.
Proof.
  intros Hc. destruct e as [message | error n].
  - intros H. destruct (write_well_formed c c' message Hc H) as (Hw & Hr & Hb & _).
    split; [exact Hw|]. rewrite Hr, Hb. reflexivity.
  - intros H. destruct (completion_well_formed c c' error n Hc H) as (Hw & Hb & _).
    split; [exact Hw|]. cbn. rewrite app_nil_r. exact Hb.
Qed.

Lemma run_well_formed (trace : list event) :
  forall c c', well_formed c -> run c trace = returned c' ->
  well_formed c'
  /\ peer_received c' ++ write_buffer_ c'
     = peer_received c ++ write_buffer_ c ++ written trace.
Proof.
  induction trace as [|e trace IH]; intros c c' Hc; cbn [run].
  - intros H; injection H as <-. split; [exact Hc|].
    cbn. rewrite app_nil_r. reflexivity.
  - destruct (step c e) as [c1| | |] eqn:Hs; try discriminate.
    intros Hrun. destruct (step_well_formed c c1 e Hc Hs) as [Hc1 Hb1].
    destruct (IH c1 c' Hc1 Hrun) as [Hc' Hb']. split; [exact Hc'|].
    rewrite Hb', app_assoc, Hb1. rewrite <- !app_assoc.
    destruct e; cbn; reflexivity.
Qed.

(** A well formed connection never calls [substr] behind the end of the
    buffer. *)
Lemma step_in_range (c : tcp_connection) (e : event) :
  well_formed c -> step c e <> out_of_range.
Proof.
  destruct c as [buffer ops received]. unfold well_formed; cbn.
  destruct ops as [|view [|view' ops]]; [| |contradiction].
  - intros ->. destruct e as [message | error n]; cbn; [|discriminate].
    unfold write, start_write; cbn. destruct message; discriminate.
  - intros (Hview & rest & ->).
    destruct e as [message | error n]; cbn.
    + unfold write; cbn. destruct view; [contradiction|]. discriminate.
    + destruct ((n <=? length view)%nat
                && (is_error error || (n =? length view)%nat)) eqn:Hen;
        [|discriminate].
      apply andb_true_iff in Hen. destruct Hen as [Hn _].
      apply Nat.leb_le in Hn.
      unfold handle_write, substr; cbn.
      assert (Hlen : (n <=? length (view ++ rest))%nat = true).
      { apply Nat.leb_le. rewrite length_app. lia. }
      rewrite Hlen.
      destruct (skipn n (view ++ rest)); [discriminate|].
      unfold start_write; cbn. discriminate.
Qed.

Lemma well_formed_one_outstanding (c : tcp_connection) :
  well_formed c ->
  (length (outstanding_writes c) <= 1)%nat
  /\ (outstanding_writes c = [] <-> write_buffer_ c = []).
Proof.
  destruct c as [buffer ops received]. unfold well_formed; cbn.
  destruct ops as [|view [|view' ops]]; [| |contradiction].
  - intros ->. cbn. split; [lia|]. split; reflexivity.
  - intros (Hview & rest & ->). split; [cbn; lia|].
    split; [discriminate|]. intros H.
    destruct view; [contradiction | discriminate].
Qed.

(** A message written to a new connection has reached the peer when its
    write has completed. *)
Lemma single_write_arrives (message : std_string) :
  message <> [] ->
  run create [call_write message; write_completes None (length message)]
  = returned (mk_connection [] [] message).
Proof.
  intros Hne. destruct message as [|b message]; [contradiction|].
  cbn [run step write create write_buffer_ outstanding_writes peer_received
       start_write app].
  rewrite Nat.leb_refl, Nat.eqb_refl. cbn [andb orb is_error].
  unfold handle_write, substr.
  cbn [write_buffer_ outstanding_writes peer_received].
  rewrite Nat.leb_refl, skipn_all, firstn_all. reflexivity.
Qed.

(** C9: on every connection, after any sequence of [write] calls and
    completions, at most one [async_write] is outstanding, and one is
    outstanding exactly when the outbound buffer is not empty; [write]
    starts an [async_write] only when the buffer was empty before the
    call; and after a completion [handle_write] leaves no write
    outstanding when the buffer is empty and one, for the unsent bytes,
    when it is not. *)
Theorem at_most_one_write_outstanding
  (trace : list event) (c : tcp_connection) :
  run create trace = returned c ->
  (length (outstanding_writes c) <= 1)%nat
  /\ (outstanding_writes c = [] <-> write_buffer_ c = [])
  /\ (forall message c',
      write message c = returned c' ->
      outstanding_writes c'
      = match write_buffer_ c with
        | [] => [message]
        | _ :: _ => outstanding_writes c
        end
      /\ (length (outstanding_writes c') <= 1)%nat)
  /\ (forall error n c',
      step c (write_completes error n) = returned c' ->
      outstanding_writes c'
      = match write_buffer_ c' with
        | [] => []
        | _ :: _ => [write_buffer_ c']
        end
      /\ (length (outstanding_writes c') <= 1)%nat).
Proof.
  intros Hrun.
  destruct (run_well_formed trace create c create_well_formed Hrun) as [Hc _].
  destruct (well_formed_one_outstanding c Hc) as [Hone Hiff].
  split; [exact Hone|]. split; [exact Hiff|]. split.
  - intros message c' Hw.
    destruct (write_well_formed c c' message Hc Hw) as (Hc' & _ & _ & Ho).
    split; [exact Ho|]. apply (well_formed_one_outstanding c' Hc').
  - intros error n c' Hs.
    destruct (completion_well_formed c c' error n Hc Hs) as (Hc' & _ & _ & Ho).
    split; [exact Ho|]. apply (well_formed_one_outstanding c' Hc').
Qed.

Lemma at_most_one_write_witness :
  run create [call_write ping; call_write pong; write_completes None 4] =
  returned (mk_connection pong [pong] ping)
  /\ (length [pong] <= 1)%nat.
Proof.
  split; [reflexivity|].
  apply (at_most_one_write_outstanding
           [call_write ping; call_write pong; write_completes None 4]
           (mk_connection pong [pong] ping)).
  reflexivity.
Defined.

(** *** Failures and failed writes *)

Lemma run_in_range (trace : list event) :
  forall c, well_formed c -> run c trace <> out_of_range.
Proof.
  induction trace as [|e trace IH]; intros c Hc; cbn [run]; [discriminate|].
  pose proof (step_in_range c e Hc) as Hrange.
  destruct (step c e) as [c1| | |] eqn:Hs; try discriminate; try contradiction.
  apply IH. apply (step_well_formed c c1 e Hc Hs).
Qed.

(** X6: whatever [write] calls and completions come, [handle_write]
    never takes a [substr] behind the end of the outbound buffer: no
    byte count a completion can report makes it throw. *)
Theorem handle_write_never_out_of_range (trace : list event) :
  run create trace <> out_of_range.
Proof. apply run_in_range. exact create_well_formed. Qed.

Lemma step_assertion (c : tcp_connection) (e : event) :
  well_formed c -> step c e = assertion_failed -> is_empty_write e = true.
Proof.
  destruct c as [buffer ops received]. unfold well_formed; cbn.
  destruct ops as [|view [|view' ops]]; [| |contradiction].
  - intros ->. destruct e as [message | error n]; cbn; [|discriminate].
    unfold write, start_write; cbn.
    destruct message; [reflexivity | discriminate].
  - intros (Hview & rest & ->).
    destruct e as [message | error n]; cbn.
    + unfold write; cbn. destruct view; [contradiction | discriminate].
    + destruct ((n <=? length view)%nat
                && (is_error error || (n =? length view)%nat)) eqn:Hen;
        [|discriminate].
      unfold handle_write, substr; cbn.
      destruct (n <=? length (view ++ rest))%nat; [|discriminate].
      destruct (skipn n (view ++ rest)); [discriminate|].
      unfold start_write; cbn. discriminate.
Qed.

Lemma run_assertion (trace : list event) :
  forall c, well_formed c -> run c trace = assertion_failed ->
  existsb is_empty_write trace = true.
Proof.
  induction trace as [|e trace IH]; intros c Hc; cbn [run existsb];
    [discriminate|].
  destruct (step c e) as [c1| | |] eqn:Hs; try discriminate.
  - intros Hrun. apply orb_true_iff. right.
    apply (IH c1); [|exact Hrun]. apply (step_well_formed c c1 e Hc Hs).
  - intros _. apply orb_true_iff. left. apply (step_assertion c e Hc Hs).
Qed.

(** X7: the assertion of [start_write] can only fail at a [write] with
    an empty message: when every message written is non-empty, no
    sequence of [write] calls and completions fails it. *)
Theorem only_empty_write_fails_assertion (trace : list event) :
  existsb is_empty_write trace = false ->
  run create trace <> assertion_failed.
Proof.
  intros Hnone Hrun.
  rewrite (run_assertion trace create create_well_formed Hrun) in Hnone.
  discriminate.
Qed.

Lemma only_empty_write_witness :
  run create [call_write ping; call_write pong; write_completes None 4]
  <> assertion_failed.
Proof.
  apply (only_empty_write_fails_assertion
           [call_write ping; call_write pong; write_completes None 4]).
  reflexivity.
Defined.

(** X8: [handle_write] does not look at the error code: when a write
    fails without having transferred a byte, the buffer is kept as it is
    and a write for all of it is started again; the connection is not
    closed and nothing is dropped. *)
Theorem failed_write_is_started_again
  (trace : list event) (c : tcp_connection) (error : asio_error) :
  run create trace = returned c ->
  write_buffer_ c <> [] ->
  step c (write_completes (Some error) 0)
  = returned (mk_connection (write_buffer_ c) [write_buffer_ c] (peer_received c)).
Proof.
  intros Hrun Hne.
  destruct (run_well_formed trace create c create_well_formed Hrun) as [Hc _].
  destruct c as [buffer ops received]. unfold well_formed in Hc; cbn in *.
  destruct ops as [|view [|view' ops]]; [contradiction| |contradiction].
  destruct Hc as (Hview & rest & ->).
  unfold handle_write, substr; cbn.
  destruct (view ++ rest) as [|b tail] eqn:Hbuf; [contradiction|].
  unfold start_write; cbn. rewrite app_nil_r. reflexivity.
Qed.

Lemma failed_write_witness :
  step (mk_connection ping [ping] []) (write_completes (Some broken_pipe) 0)
  = returned (mk_connection ping [ping] []).
Proof.
  apply (failed_write_is_started_again [call_write ping]
           (mk_connection ping [ping] []) broken_pipe).
  - reflexivity.
  - discriminate.
Defined.

End TcpConnectionFacts.

(** ** The connection and the storage of its buffer *)

Module TcpStorageFacts.

Import TcpStorage.

Section WithLibrary.

Variable initial_capacity : nat.
Variable new_capacity : nat -> nat -> nat.

Local Notation "'new'" := (create initial_capacity).
Local Notation "'running'" := (run new_capacity).

(** The first [write] on a new connection. *)
Lemma first_write (first : std_string) :
  first <> [] ->
  exists c1,
    running new [call_write first] = returned c1
    /\ characters (write_buffer_ c1) = first
    /\ outstanding_writes c1
       = [mk_buffer (data (write_buffer_ c1)) (length first)]
    /\ peer_received c1 = []
    /\ (data (write_buffer_ c1) < allocations c1)%nat.
Proof.
  intros Hne. destruct first as [|b first]; [contradiction|].
  unfold create. cbn [run step write write_buffer_ characters].
  unfold assign. cbn [write_buffer_ capacity data outstanding_writes
                      peer_received allocations].
  destruct (length (b :: first) <=? initial_capacity)%nat;
    unfold start_write; cbn [write_buffer_ characters];
    eexists; (split; [reflexivity|]); cbn; repeat split; lia.
Qed.

(** A [write] on a connection whose buffer is not empty appends. *)
Lemma write_appends (message : std_string) (c : tcp_connection) :
  characters (write_buffer_ c) <> [] ->
  write new_capacity message c = returned (append new_capacity message c).
Proof.
  intros Hne. unfold write.
  destruct (characters (write_buffer_ c)); [contradiction | reflexivity].
Qed.

(** An [append] that does not fit the capacity moves the string. *)
Lemma append_moves (message : std_string) (c : tcp_connection) :
  (capacity (write_buffer_ c)
   < length (characters (write_buffer_ c)) + length message)%nat ->
  append new_capacity message c
  = mk_connection
      (mk_string (characters (write_buffer_ c) ++ message)
                 (new_capacity (capacity (write_buffer_ c))
                               (length (characters (write_buffer_ c))
                                + length message))
                 (allocations c))
      (outstanding_writes c) (peer_received c) (S (allocations c)).
Proof.
  intros Hcap. unfold append.
  assert (H : (length (characters (write_buffer_ c)) + length message
               <=? capacity (write_buffer_ c))%nat = false)
    by (apply Nat.leb_gt; exact Hcap).
  rewrite H. reflexivity.
Qed.

(** [handle_write] after the bytes of the first of two messages. *)
Lemma handle_write_front (first message received : std_string)
  (cap dat count : nat) (views : list const_buffer) :
  exists c3,
    handle_write new_capacity None (length first)
      (mk_connection (mk_string (first ++ message) cap dat) views received count)
    = returned c3
    /\ peer_received c3 = received
    /\ characters (write_buffer_ c3) = message.
Proof.
  unfold handle_write.
  cbn [write_buffer_ characters outstanding_writes peer_received allocations].
  assert (Hlen : (length first <=? length (first ++ message))%nat = true)
    by (apply Nat.leb_le; rewrite length_app; lia).
  rewrite Hlen.
  replace (skipn (length first) (first ++ message)) with message
    by (rewrite skipn_app, Nat.sub_diag, skipn_all; reflexivity).
  destruct message as [|m message].
  - eexists. split; [reflexivity|]. split; reflexivity.
  - unfold start_write. cbn [write_buffer_ characters].
    eexists. split; [reflexivity|]. split; reflexivity.
Qed.

(** C6 fails on the code: on a new connection, a [write] made while the
    first write is in flight with a message that does not fit the
    capacity of [write_buffer_] moves the string to a new allocation;
    the buffer of the write in flight still points into the released
    one, and when the write completes the peer has received the bytes
    found there, whatever they are, in the place of the first message.
    This holds for every choice of capacities the library makes. *)
Theorem write_in_flight_past_capacity_sends_released_storage
  (first message found : std_string) (c1 : tcp_connection) :
  first <> [] ->
  running new [call_write first] = returned c1 ->
  (capacity (write_buffer_ c1) < length first + length message)%nat ->
  length found = length first ->
  exists c3,
    running new [call_write first; call_write message;
                 write_completes None (length first) found]
    = returned c3
    /\ peer_received c3 = found
    /\ characters (write_buffer_ c3) = message.
Proof.
  intros Hne Hrun Hcap Hfound.
  destruct (first_write first Hne)
    as (c1' & Hrun' & Hchars & Hviews & Hpeer & Hdata).
  rewrite Hrun in Hrun'. injection Hrun' as <-.
  cbn [run] in Hrun |- *.
  destruct (step new_capacity new (call_write first)) as [c| | |] eqn:Hs;
    try discriminate Hrun.
  injection Hrun as ->.
  cbn [step]. rewrite write_appends by (rewrite Hchars; exact Hne).
  rewrite append_moves by (rewrite Hchars; exact Hcap).
  rewrite Hchars, Hviews, Hpeer.
  cbn [step outstanding_writes write_buffer_ data buffer_data buffer_size
       peer_received allocations characters].
  assert (Hplace : (data (write_buffer_ c1) =? allocations c1)%nat = false)
    by (apply Nat.eqb_neq; lia).
  rewrite Hplace, Nat.leb_refl, Nat.eqb_refl, Hfound, Nat.eqb_refl.
  cbn [andb orb TcpConnection.is_error app].
  destruct (handle_write_front first message found
              (new_capacity (capacity (write_buffer_ c1))
                            (length first + length message))
              (allocations c1) (S (allocations c1)) [])
    as (c3 & H3 & Hp3 & Hc3).
  rewrite H3. exists c3. repeat split; assumption.
Qed.

(** When the message fits the capacity the string stays where it is and
    the peer receives the first message. *)
Lemma write_in_flight_within_capacity_sends_first
  (first message found : std_string) (c1 : tcp_connection) :
  first <> [] ->
  running new [call_write first] = returned c1 ->
  (length first + length message <= capacity (write_buffer_ c1))%nat ->
  exists c3,
    running new [call_write first; call_write message;
                 write_completes None (length first) found]
    = returned c3
    /\ peer_received c3 = first
    /\ characters (write_buffer_ c3) = message.
Proof.
  intros Hne Hrun Hcap.
  destruct (first_write first Hne)
    as (c1' & Hrun' & Hchars & Hviews & Hpeer & Hdata).
  rewrite Hrun in Hrun'. injection Hrun' as <-.
  cbn [run] in Hrun |- *.
  destruct (step new_capacity new (call_write first)) as [c| | |] eqn:Hs;
    try discriminate Hrun.
  injection Hrun as ->.
  cbn [step]. rewrite write_appends by (rewrite Hchars; exact Hne).
  unfold append. rewrite Hchars.
  assert (Hfit : (length first + length message
                  <=? capacity (write_buffer_ c1))%nat = true)
    by (apply Nat.leb_le; exact Hcap).
  rewrite Hfit, Hviews, Hpeer.
  cbn [step outstanding_writes write_buffer_ data buffer_data buffer_size
       peer_received allocations characters].
  rewrite !Nat.eqb_refl, Nat.leb_refl.
  cbn [andb orb TcpConnection.is_error app].
  replace (firstn (length first) (first ++ message)) with first
    by (rewrite firstn_app, Nat.sub_diag, firstn_all; cbn;
        rewrite app_nil_r; reflexivity).
  destruct (handle_write_front first message first
              (capacity (write_buffer_ c1)) (data (write_buffer_ c1))
              (allocations c1) [])
    as (c3 & H3 & Hp3 & Hc3).
  rewrite H3. exists c3. repeat split; assumption.
Qed.

(** Messages written one by one arrive as they were written: no write
    is in flight when the buffer is assigned. *)
Lemma one_by_one_arrives (messages : list std_string) :
  forall c,
  characters (write_buffer_ c) = [] ->
  outstanding_writes c = [] ->
  Forall (fun message => message <> []) messages ->
  exists c',
    running c (one_by_one messages) = returned c'
    /\ characters (write_buffer_ c') = []
    /\ outstanding_writes c' = []
    /\ peer_received c' = peer_received c ++ concat messages.
Proof.
  induction messages as [|message messages IH]; intros c Hchars Hviews Hall.
  - exists c. cbn. rewrite app_nil_r. repeat split; assumption.
  - inversion Hall as [|m ms Hne Hrest]; subst.
    destruct message as [|b message]; [contradiction|].
    destruct c as [[chars cap dat] views received count].
    cbn [write_buffer_ characters outstanding_writes peer_received] in *.
    subst chars views.
    cbn [one_by_one flat_map app]. fold (one_by_one messages).
    cbn [run step write write_buffer_ characters]. unfold assign.
    cbn [write_buffer_ characters capacity data outstanding_writes
         peer_received allocations].
    destruct (length (b :: message) <=? cap)%nat;
      unfold start_write;
      cbn [write_buffer_ characters capacity data outstanding_writes
           peer_received allocations app run step buffer_data buffer_size];
      rewrite !Nat.eqb_refl, Nat.leb_refl;
      cbn [andb orb TcpConnection.is_error];
      unfold handle_write;
      cbn [write_buffer_ characters capacity data outstanding_writes
           peer_received allocations];
      rewrite Nat.leb_refl, skipn_all, firstn_all;
      match goal with
      | |- context [running ?c0 (one_by_one messages)] =>
          destruct (IH c0 eq_refl eq_refl Hrest) as (c' & Hrun & Hc & Hv & Hp)
      end;
      exists c'; (split; [exact Hrun|]); (split; [exact Hc|]);
      (split; [exact Hv|]); rewrite Hp;
      cbn [peer_received concat]; rewrite <- app_assoc; reflexivity.
Qed.

End WithLibrary.

Lemma write_in_flight_past_capacity_witness :
  exists c3,
    run doubling (create 15)
        [call_write TcpConnection.ping; call_write twelve;
         write_completes None 4 [x1e; x00; x00; x00]]
    = returned c3
    /\ peer_received c3 = [x1e; x00; x00; x00]
    /\ characters (write_buffer_ c3) = twelve.
Proof.
  apply (write_in_flight_past_capacity_sends_released_storage
           15%nat doubling TcpConnection.ping twelve [x1e; x00; x00; x00]
           (mk_connection (mk_string TcpConnection.ping 15 0)
                          [mk_buffer 0 4] [] 1)).
  - discriminate.
  - reflexivity.
  - simpl. lia.
  - reflexivity.
Defined.

End TcpStorageFacts.

(** ** The protocol: heartbeat, frames and dispatch *)

Module ProtocolFacts.

Import Protocol.

(** *** The length prefix *)

Lemma Z_of_byte_of_Z (z : Z) : Z_of_byte (byte_of_Z z) = z mod 256.
Proof.
  unfold Z_of_byte, byte_of_Z.
  assert (Hz : 0 <= z mod 256 < 256) by (apply Z.mod_pos_bound; lia).
  destruct (Byte.of_N (Z.to_N (z mod 256))) as [b|] eqn:Hb.
  - apply Byte.to_of_N in Hb. rewrite Hb. apply Z2N.id. lia.
  - apply Byte.of_N_None_iff in Hb. lia.
Qed.

Lemma little_endian_round_trip (n : Z) :
  0 <= n < 4294967296 ->
  little_endian_value (little_endian_bytes n) = n.
Proof.
  intros Hn. unfold little_endian_value, little_endian_bytes.
  cbn [fold_right]. rewrite !Z_of_byte_of_Z.
  Z.div_mod_to_equations. lia.
Qed.

Lemma byte_array_round_trip (order : byte_order) (n : Z) :
  0 <= n < 4294967296 ->
  from_byte_array order (to_byte_array order n) = n.
Proof.
  intros Hn. unfold from_byte_array, to_byte_array, uint32.
  destruct order.
  - rewrite rev_involutive, little_endian_round_trip by assumption.
    apply Z.mod_small. assumption.
  - rewrite little_endian_round_trip by assumption.
    apply Z.mod_small. assumption.
Qed.

Lemma to_byte_array_length (order : byte_order) (n : Z) :
  length (to_byte_array order n) = 4%nat.
Proof. destruct order; reflexivity. Qed.

Lemma firstn_prefix (A : Type) (prefix rest : list A) :
  firstn (length prefix) (prefix ++ rest) = prefix.
Proof.
  rewrite firstn_app, Nat.sub_diag, firstn_all. cbn. apply app_nil_r.
Qed.

Lemma skipn_prefix (A : Type) (prefix rest : list A) :
  skipn (length prefix) (prefix ++ rest) = rest.
Proof.
  rewrite skipn_app, Nat.sub_diag, skipn_all. reflexivity.
Qed.

(** *** The heartbeat *)

Section Heartbeat.

Variable quorum : Type.
Variables needs_new_leader we_are_the_leader : quorum -> bool.
Variables handshake_starts reset_state elect_leader_starts
          announce_leadership_starts : quorum -> quorum.
Variable heartbeat_interval : Z.

(** C5: every heartbeat tick first starts the handshake; then, when
    [needs_new_leader ()] is true of the quorum after that, calls
    [reset_state ()] and after it starts the election; then, when
    [we_are_the_leader ()] is true of the quorum after that, starts the
    announcement of the leadership; and last sets the heartbeat timer
    to one [heartbeat_interval] and waits on it for the next tick.  No
    other action is performed. *)
Theorem heartbeat_performs_its_actions_in_order (q : quorum) :
  let q1 := handshake_starts q in
  let q2 := if needs_new_leader q1
            then elect_leader_starts (reset_state q1) else q1 in
  let q3 := if we_are_the_leader q2
            then announce_leadership_starts q2 else q2 in
  heartbeat quorum needs_new_leader we_are_the_leader handshake_starts
            reset_state elect_leader_starts announce_leadership_starts
            heartbeat_interval q
  = ([handshake_start]
       ++ (if needs_new_leader q1
           then [quorum_reset_state; elect_leader_start] else [])
       ++ (if we_are_the_leader q2 then [announce_leadership_start] else [])
       ++ [heartbeat_timer_expires_from_now heartbeat_interval;
           heartbeat_timer_async_wait],
     returned tt, q3).
Proof.
  cbv zeta. unfold heartbeat, bind, call, ask, perform, ret.
  destruct (needs_new_leader (handshake_starts q)).
  - destruct (we_are_the_leader
                (elect_leader_starts (reset_state (handshake_starts q))));
      reflexivity.
  - destruct (we_are_the_leader (handshake_starts q)); reflexivity.
Qed.

End Heartbeat.

(** *** Reading frames and dispatching commands *)

Section Commands.

Variable quorum : Type.
Variable order : byte_order.
Variable to_string : command -> std_string.
Variable from_string : std_string -> command.
Variables handshake_receives leader_claim_receives leader_receives :
  command -> quorum -> quorum.
Variable external_callback_runs : nat -> command -> quorum -> quorum.

Local Notation "'parse_size'" := (read_command_parse_size quorum order).
Local Notation "'parse_command'" :=
  (read_command_parse_command quorum from_string handshake_receives
     leader_claim_receives leader_receives external_callback_runs).
Local Notation "'dispatch'" :=
  (handle_command quorum handshake_receives leader_claim_receives
     leader_receives).

(** Without an error [read_command_parse_size] allocates and reads what
    the prefix decodes to, whatever it is. *)
Lemma parse_size_reads_decoded_length (bytes_buffer : std_string)
  (callback : read_command_callback_type) (q : quorum) :
  parse_size None 4%nat bytes_buffer callback q
  = ([new_char_array (from_byte_array order (firstn 4 bytes_buffer));
      async_read (from_byte_array order (firstn 4 bytes_buffer))
                 (bound_read_command_parse_command callback)],
     returned tt, q).
Proof. reflexivity. Qed.

(** The same for the prefix [to_byte_array] makes of a length. *)
Lemma parse_size_of_prefix (bytes : Z)
  (callback : read_command_callback_type) (q : quorum) :
  0 <= bytes < 4294967296 ->
  parse_size None 4%nat (to_byte_array order bytes) callback q
  = ([new_char_array bytes;
      async_read bytes (bound_read_command_parse_command callback)],
     returned tt, q).
Proof.
  intros Hb. rewrite parse_size_reads_decoded_length.
  replace (firstn 4 (to_byte_array order bytes))
    with (to_byte_array order bytes) by (destruct order; reflexivity).
  rewrite byte_array_round_trip by assumption.
  reflexivity.
Qed.

(** C2 (amended): for every length the four bytes of a prefix can carry,
    also above any maximum frame size, [read_command_parse_size]
    allocates a buffer of exactly that length and starts one read for
    that many bytes; it performs nothing else: it does not close the
    connection and does not mark the peer dead. *)
Theorem parse_size_reads_any_length (bytes : Z)
  (callback : read_command_callback_type) (q : quorum) :
  0 <= bytes < 4294967296 ->
  let r := parse_size None 4%nat (to_byte_array order bytes) callback q in
  r = ([new_char_array bytes;
        async_read bytes (bound_read_command_parse_command callback)],
       returned tt, q)
  /\ issued_reads (actions r)
     = [(bytes, bound_read_command_parse_command callback)]
  /\ ~ In connection_close (actions r)
  /\ ~ In quorum_mark_dead (actions r).
Proof.
  intros Hb. cbv zeta. rewrite (parse_size_of_prefix bytes callback q Hb).
  repeat split; intros H;
    repeat (destruct H as [H | H]; try discriminate H); exact H.
Qed.

(** A read that the stream cannot fill ends the reading on the
    connection: the handler of the failed read starts no other read. *)
Lemma failed_read_ends_loop (s : io_service quorum) (size : Z)
  (handler : read_handler) (others : list (Z * read_handler)) :
  last_ending quorum s = returned tt ->
  outstanding_reads quorum s = (size, handler) :: others ->
  (length (incoming quorum s) < Z.to_nat size)%nat ->
  let s' := poll_one quorum order from_string handshake_receives
              leader_claim_receives leader_receives external_callback_runs s in
  outstanding_reads quorum s' = others
  /\ delivered (performed quorum s') = delivered (performed quorum s)
  /\ quorum_ quorum s' = quorum_ quorum s
  /\ last_ending quorum s' = returned tt.
Proof.
  intros Hend Hreads Hshort. unfold poll_one, complete_read.
  rewrite Hend, Hreads.
  assert (H : (Z.to_nat size <=? length (incoming quorum s))%nat = false)
    by (apply Nat.leb_gt; exact Hshort).
  rewrite H.
  destruct handler as [callback | callback]; cbn;
    unfold delivered; rewrite flat_map_app; cbn; rewrite !app_nil_r;
    repeat split; reflexivity.
Qed.

(** C10: when the read of the length prefix or of the body completes
    with an error, [read_command_parse_size] only logs a warning and
    [read_command_parse_command] only cancels the timeout of the
    connection and logs a warning; both return: the callback is not
    called, the connection is not closed, the quorum is as before, and
    no read is started, so that no further command comes from the
    connection. *)
Theorem read_error_stops_reading (error : asio_error)
  (bytes_transferred : nat) (buffer : std_string)
  (callback : read_command_callback_type) (q : quorum) :
  parse_size (Some error) bytes_transferred buffer callback q
  = ([warn], returned tt, q)
  /\ parse_command (Some error) bytes_transferred buffer callback q
     = ([cancel_timeout; warn], returned tt, q)
  /\ forall handler : read_handler,
      let r := run_handler quorum order from_string handshake_receives
                 leader_claim_receives leader_receives external_callback_runs
                 handler (Some error) bytes_transferred buffer q in
      ending r = returned tt
      /\ quorum_after r = q
      /\ issued_reads (actions r) = []
      /\ delivered (actions r) = []
      /\ ~ In connection_close (actions r)
      /\ ~ In quorum_mark_dead (actions r)
      /\ (forall c, ~ In (receive_handshake_start c) (actions r)
                    /\ ~ In (receive_leader_claim c) (actions r)
                    /\ ~ In (receive_leader c) (actions r)).
Proof.
  split; [reflexivity|]. split; [reflexivity|].
  intros [cb | cb]; cbn;
    repeat split; try reflexivity; intros H;
    repeat (destruct H as [H | H]; try discriminate H); exact H.
Qed.

(** C8 (amended): for every command whose type is not
    [type_handshake_start], [type_leader_claim] or
    [type_leader_announce], [handle_command] throws [protocol_error]
    before it does anything else: the connection is not closed, the
    peer is not marked dead, no read is started on the connection, the
    quorum is as before; and the exception leaves
    [read_command_parse_command], the completion handler that gave the
    command to [handle_command]. *)
Theorem unknown_type_throws_protocol_error (c : command) (q : quorum) :
  recognized (type c) = false ->
  dispatch c q = ([], thrown protocol_error, q)
  /\ forall (bytes_transferred : nat) (buffer : std_string),
      from_string (firstn bytes_transferred buffer) = c ->
      parse_command None bytes_transferred buffer bound_handle_command q
      = ([cancel_timeout], thrown protocol_error, q).
Proof.
  intros Hc.
  assert (Hd : dispatch c q = ([], thrown protocol_error, q)).
  { unfold handle_command, bind, PAXOS_THROW.
    destruct (type c); try discriminate Hc; reflexivity. }
  split; [exact Hd|].
  intros n buffer Hfrom.
  unfold read_command_parse_command, bind, perform, invoke.
  rewrite Hfrom, Hd. reflexivity.
Qed.

Lemma complete_read_front (front rest : std_string) :
  complete_read (Z.of_nat (length front)) (front ++ rest) = (None, front, rest).
Proof.
  unfold complete_read. rewrite Nat2Z.id.
  assert (H : (length front <=? length (front ++ rest))%nat = true).
  { apply Nat.leb_le. rewrite length_app. lia. }
  rewrite H, firstn_prefix, skipn_prefix. reflexivity.
Qed.

Lemma complete_read_prefix (n : Z) (rest : std_string) :
  complete_read 4 (to_byte_array order n ++ rest)
  = (None, to_byte_array order n, rest).
Proof.
  pose proof (complete_read_front (to_byte_array order n) rest) as H.
  rewrite to_byte_array_length in H. exact H.
Qed.

Lemma poll_idle (fuel : nat) :
  forall s : io_service quorum, outstanding_reads quorum s = [] ->
  poll quorum order from_string handshake_receives leader_claim_receives
       leader_receives external_callback_runs fuel s = s.
Proof.
  induction fuel as [|fuel IH]; intros s Hs; [reflexivity|].
  cbn [poll].
  assert (H1 : poll_one quorum order from_string handshake_receives
                 leader_claim_receives leader_receives external_callback_runs s
               = s).
  { unfold poll_one. rewrite Hs. destruct (last_ending quorum s); reflexivity. }
  rewrite H1. apply IH. exact Hs.
Qed.

(** The frame [write_command] makes. *)
Lemma encode_frame (c : command) (q : quorum) :
  encode quorum order to_string c q
  = to_byte_array order (uint32 (Z.of_nat (length (to_string c))))
    ++ to_string c.
Proof.
  unfold encode, write_command, perform, actions, written. cbn.
  apply app_nil_r.
Qed.

(** The reader on a stream that starts with a frame: two completions
    give the body to the callback and leave the rest of the stream. *)
Lemma poll_reads_one_frame (body rest : std_string) (id : nat) (q : quorum) :
  Z.of_nat (length body) < 4294967296 ->
  poll quorum order from_string handshake_receives leader_claim_receives
       leader_receives external_callback_runs 2
       (post quorum (read_command quorum (external_callback id))
             ((to_byte_array order (Z.of_nat (length body)) ++ body) ++ rest) q)
  = mk_io_service quorum rest []
      [new_char_array 4;
       async_read 4 (bound_read_command_parse_size (external_callback id));
       new_char_array (Z.of_nat (length body));
       async_read (Z.of_nat (length body))
                  (bound_read_command_parse_command (external_callback id));
       cancel_timeout;
       call_external_callback id (from_string body)]
      (external_callback_runs id (from_string body) q)
      (returned tt).
Proof.
  intros Hlen.
  unfold post, read_command, bind, perform. cbn [issued_reads flat_map app].
  cbn [poll]. unfold poll_one at 2.
  cbn [last_ending outstanding_reads incoming quorum_ performed].
  rewrite <- app_assoc, complete_read_prefix.
  cbn [run_handler]. rewrite to_byte_array_length.
  rewrite parse_size_of_prefix by lia.
  cbn [issued_reads flat_map app].
  unfold poll_one.
  cbn [last_ending outstanding_reads incoming quorum_ performed].
  rewrite complete_read_front.
  cbn [run_handler]. unfold read_command_parse_command, bind, perform, invoke, call.
  rewrite firstn_all. reflexivity.
Qed.

(** C7 (amended): for every command whose serialized body is shorter
    than 4 GiB and which its serializer gives back, [write_command]
    makes a frame of a four byte prefix that decodes to the byte count
    of the body, followed by the body; the frame, written to a new
    connection, reaches the peer as it is; and a reader on a stream that
    starts with the frame reads four bytes, then exactly as many bytes
    as the prefix says, calls the callback with the command and leaves
    the rest of the stream. *)
Theorem frame_round_trip (c : command) (id : nat) (rest : std_string)
  (q : quorum) (fuel : nat) :
  from_string (to_string c) = c ->
  Z.of_nat (length (to_string c)) < 4294967296 ->
  (2 <= fuel)%nat ->
  let frame := encode quorum order to_string c q in
  frame = to_byte_array order (Z.of_nat (length (to_string c))) ++ to_string c
  /\ from_byte_array order (firstn 4 frame) = Z.of_nat (length (to_string c))
  /\ TcpConnection.run TcpConnection.create
       [TcpConnection.call_write frame;
        TcpConnection.write_completes None (length frame)]
     = TcpConnection.returned (TcpConnection.mk_connection [] [] frame)
  /\ issued_reads
       (performed quorum
          (poll quorum order from_string handshake_receives
                leader_claim_receives leader_receives external_callback_runs
                fuel
                (post quorum (read_command quorum (external_callback id))
                      (frame ++ rest) q)))
     = [(4, bound_read_command_parse_size (external_callback id));
        (Z.of_nat (length (to_string c)),
         bound_read_command_parse_command (external_callback id))]
  /\ decode quorum order from_string handshake_receives leader_claim_receives
            leader_receives external_callback_runs fuel id (frame ++ rest) q
     = ([c], rest).
Proof.
  intros Hcodec Hlen Hfuel. cbv zeta.
  assert (Hframe : encode quorum order to_string c q
                   = to_byte_array order (Z.of_nat (length (to_string c)))
                     ++ to_string c).
  { rewrite encode_frame. unfold uint32. rewrite Z.mod_small by lia. reflexivity. }
  rewrite Hframe.
  assert (Hpoll : poll quorum order from_string handshake_receives
                    leader_claim_receives leader_receives external_callback_runs
                    fuel
                    (post quorum (read_command quorum (external_callback id))
                          ((to_byte_array order (Z.of_nat (length (to_string c)))
                              ++ to_string c) ++ rest) q)
                  = mk_io_service quorum rest []
                      [new_char_array 4;
                       async_read 4 (bound_read_command_parse_size
                                       (external_callback id));
                       new_char_array (Z.of_nat (length (to_string c)));
                       async_read (Z.of_nat (length (to_string c)))
                                  (bound_read_command_parse_command
                                     (external_callback id));
                       cancel_timeout;
                       call_external_callback id c]
                      (external_callback_runs id c q)
                      (returned tt)).
  { destruct fuel as [|[|fuel]]; [lia | lia |].
    pose proof (poll_reads_one_frame (to_string c) rest id q Hlen) as H2.
    rewrite Hcodec in H2.
    cbn [poll] in *. rewrite H2. apply poll_idle. reflexivity. }
  repeat split.
  - rewrite <- (to_byte_array_length order (Z.of_nat (length (to_string c)))).
    rewrite firstn_prefix. apply byte_array_round_trip. lia.
  - apply TcpConnectionFacts.single_write_arrives.
    destruct order; discriminate.
  - rewrite Hpoll. reflexivity.
  - unfold decode. rewrite Hpoll. reflexivity.
Qed.

End Commands.

Lemma tagged_round_trip (c : command) :
  tagged_from_string (tagged_to_string c) = c.
Proof. destruct c as [t w]. destruct t; reflexivity. Qed.

Lemma frame_round_trip_witness :
  decode unit little_endian tagged_from_string no_change no_change no_change
         no_external_change 2 0
         (encode unit little_endian tagged_to_string
                 (mk_command type_request_initiate Client.foo) tt
            ++ TcpConnection.ping) tt
  = ([mk_command type_request_initiate Client.foo], TcpConnection.ping).
Proof.
  apply (frame_round_trip unit little_endian tagged_to_string
           tagged_from_string no_change no_change no_change no_external_change
           (mk_command type_request_initiate Client.foo) 0%nat
           TcpConnection.ping tt 2%nat).
  - reflexivity.
  - simpl. lia.
  - lia.
Defined.

(** The prefix of a body of exactly 4 GiB. *)
Lemma prefix_wraps (order : byte_order) (body : std_string) (n : nat) :
  length body = n ->
  Z.of_nat n = 4294967295 ->
  Z.of_nat (length (tagged_to_string
                      (mk_command type_request_initiate body)))
  = 4294967296
  /\ from_byte_array order
       (firstn 4 (encode unit order tagged_to_string
                         (mk_command type_request_initiate body) tt))
     = 0.
Proof.
  intros Hw Hn.
  assert (Hlen : Z.of_nat (length (tagged_to_string
                                     (mk_command type_request_initiate body)))
                 = 4294967296).
  { unfold tagged_to_string. cbn [length type workload].
    rewrite Hw, Nat2Z.inj_succ, Hn. reflexivity. }
  split; [exact Hlen|].
  rewrite encode_frame, Hlen.
  change (uint32 4294967296) with 0.
  rewrite <- (to_byte_array_length order 0) at 1.
  rewrite firstn_prefix. apply byte_array_round_trip. lia.
Qed.

(** C7, as the specification words it, fails: for a request with a
    workload of 4 GiB - 1 bytes the body has 4 GiB, [write_command]
    narrows the size to 32 bits, and the prefix of the frame decodes to 0
    instead of the byte count of the body. *)
Lemma four_gibibyte_body_gets_prefix_zero :
  Z.of_nat (length (tagged_to_string four_gibibyte_request)) = 4294967296
  /\ from_byte_array little_endian
       (firstn 4 (encode unit little_endian tagged_to_string
                         four_gibibyte_request tt))
     = 0
  /\ ~ frames_round_trip.
Proof.
  destruct (prefix_wraps little_endian (repeat x00 (Z.to_nat 4294967295))
              (Z.to_nat 4294967295) (repeat_length x00 (Z.to_nat 4294967295))
              (Z2Nat.id 4294967295 ltac:(lia)))
    as [Hlen Hprefix].
  split; [exact Hlen|]. split; [exact Hprefix|].
  intros H.
  destruct (H unit little_endian tagged_to_string tagged_from_string
              no_change no_change no_change no_external_change
              four_gibibyte_request 0%nat tt tagged_round_trip)
    as [Hclaim _].
  unfold four_gibibyte_request in Hclaim.
  rewrite Hprefix, Hlen in Hclaim. discriminate Hclaim.
Qed.

Lemma parse_size_reads_any_length_witness :
  0 <= 16777217 < 4294967296
  /\ read_command_parse_size unit little_endian None 4%nat
       (to_byte_array little_endian 16777217) bound_handle_command tt
     = ([new_char_array 16777217;
         async_read 16777217
                    (bound_read_command_parse_command bound_handle_command)],
        returned tt, tt).
Proof.
  split; [lia|].
  apply (proj1 (parse_size_reads_any_length unit little_endian 16777217
                  bound_handle_command tt ltac:(lia))).
Defined.

(** C2, as the specification words it, fails: the prefix 01 00 00 01
    decodes to 16 MiB + 1 in both byte orders, and
    [read_command_parse_size] allocates that many bytes and starts the
    read for them; the connection is not closed. *)
Lemma frame_above_sixteen_mebibytes_is_read :
  read_command_parse_size unit big_endian None 4%nat [x01; x00; x00; x01]
                          bound_handle_command tt
  = ([new_char_array 16777217;
      async_read 16777217
                 (bound_read_command_parse_command bound_handle_command)],
     returned tt, tt)
  /\ read_command_parse_size unit little_endian None 4%nat [x01; x00; x00; x01]
                             bound_handle_command tt
     = ([new_char_array 16777217;
         async_read 16777217
                    (bound_read_command_parse_command bound_handle_command)],
        returned tt, tt)
  /\ ~ rejects_frames_above 16777216.
Proof.
  split; [reflexivity|]. split; [reflexivity|].
  intros H.
  destruct (H unit big_endian [x01; x00; x00; x01] bound_handle_command tt)
    as (Hclose & _).
  - reflexivity.
  - cbn in Hclose.
    repeat (destruct Hclose as [Hclose | Hclose]; try discriminate Hclose).
    exact Hclose.
Qed.

Lemma unknown_type_throws_witness :
  recognized type_request_initiate = false
  /\ handle_command unit no_change no_change no_change
       (mk_command type_request_initiate Client.foo) tt
     = ([], thrown protocol_error, tt).
Proof.
  split; [reflexivity|].
  apply (unknown_type_throws_protocol_error unit tagged_from_string
           no_change no_change no_change no_external_change
           (mk_command type_request_initiate Client.foo) tt).
  reflexivity.
Defined.

(** C8, as the specification words it, fails: for the command
    [initiate_request] itself sends, of type [type_request_initiate],
    [handle_command] throws and performs no action, so the connection is
    not closed. *)
Lemma request_initiate_is_thrown_not_closed :
  handle_command unit no_change no_change no_change
    (mk_command type_request_initiate Client.foo) tt
  = ([], thrown protocol_error, tt)
  /\ ~ unknown_type_closes_connection.
Proof.
  split; [reflexivity|].
  intros H.
  destruct (H unit no_change no_change no_change
              (mk_command type_request_initiate Client.foo) tt)
    as (Hclose & _).
  - reflexivity.
  - exact Hclose.
Qed.

(** *** Ticks of the heartbeat *)

Section Ticks.

Variable quorum : Type.
Variables needs_new_leader we_are_the_leader : quorum -> bool.
Variables handshake_starts reset_state elect_leader_starts
          announce_leadership_starts : quorum -> quorum.
Variable heartbeat_interval : Z.

Local Notation "'tick'" :=
  (heartbeat quorum needs_new_leader we_are_the_leader handshake_starts
     reset_state elect_leader_starts announce_leadership_starts
     heartbeat_interval).
Local Notation "'ticking'" :=
  (ticks quorum needs_new_leader we_are_the_leader handshake_starts
     reset_state elect_leader_starts announce_leadership_starts
     heartbeat_interval).

Lemma tick_counts (q : quorum) :
  ending (tick q) = returned tt
  /\ length (filter is_handshake_start (actions (tick q))) = 1%nat
  /\ length (filter is_timer_wait (actions (tick q))) = 1%nat
  /\ length (filter is_reset_state (actions (tick q)))
     = length (filter is_elect_leader_start (actions (tick q))).
Proof.
  unfold heartbeat, bind, call, ask, perform, ret, actions, ending.
  destruct (needs_new_leader (handshake_starts q)).
  - destruct (we_are_the_leader
                (elect_leader_starts (reset_state (handshake_starts q))));
      repeat split.
  - destruct (we_are_the_leader (handshake_starts q)); repeat split.
Qed.

Lemma ticks_step (n : nat) (q : quorum) :
  ending (tick q) = returned tt ->
  actions (ticking (S n) q)
  = actions (tick q) ++ actions (ticking n (quorum_after (tick q)))
  /\ ending (ticking (S n) q) = ending (ticking n (quorum_after (tick q))).
Proof.
  cbn [ticks]. unfold bind, actions, ending, quorum_after.
  destruct (tick q) as [[l r] q1]. cbn [fst snd]. intros ->.
  destruct (ticking n q1) as [[l' r'] q2]. split; reflexivity.
Qed.

(** X9: however often the heartbeat timer expires, every tick starts
    one handshake and one wait on the heartbeat timer, so that after [n]
    ticks [n] handshakes and [n] waits were started and the heartbeat
    goes on; and [reset_state] was called as often as an election was
    started. *)
Theorem every_tick_rearms_the_timer_once (n : nat) (q : quorum) :
  ending (ticking n q) = returned tt
  /\ length (filter is_handshake_start (actions (ticking n q))) = n
  /\ length (filter is_timer_wait (actions (ticking n q))) = n
  /\ length (filter is_reset_state (actions (ticking n q)))
     = length (filter is_elect_leader_start (actions (ticking n q))).
Proof.
  revert q. induction n as [|n IH]; intros q.
  - repeat split.
  - destruct (tick_counts q) as (He & Hh & Hw & Hr).
    destruct (ticks_step n q He) as [Ha Hend].
    destruct (IH (quorum_after (tick q))) as (IHe & IHh & IHw & IHr).
    rewrite Ha, Hend, !filter_app, !length_app.
    repeat split; try assumption; lia.
Qed.

End Ticks.

(** *** The reading side *)

Section Reading.

Variable quorum : Type.
Variable order : byte_order.
Variable to_string : command -> std_string.
Variable from_string : std_string -> command.
Variables handshake_receives leader_claim_receives leader_receives :
  command -> quorum -> quorum.
Variable external_callback_runs : nat -> command -> quorum -> quorum.

Local Notation "'handler_runs'" :=
  (run_handler quorum order from_string handshake_receives
     leader_claim_receives leader_receives external_callback_runs).
Local Notation "'one_poll'" :=
  (poll_one quorum order from_string handshake_receives
     leader_claim_receives leader_receives external_callback_runs).
Local Notation "'polling'" :=
  (poll quorum order from_string handshake_receives
     leader_claim_receives leader_receives external_callback_runs).
Local Notation "'calls'" :=
  (invoke quorum handshake_receives leader_claim_receives leader_receives
     external_callback_runs).
Local Notation "'frame_of'" := (encode quorum order to_string).

(** X10: for every command, whatever the size of its body, the frame of
    [write_command] is four bytes longer than the body and its prefix
    decodes to the byte count of the body modulo 2^32. *)
Theorem prefix_is_body_size_modulo_two_to_the_32 (c : command) (q : quorum) :
  length (frame_of c q) = (4 + length (to_string c))%nat
  /\ from_byte_array order (firstn 4 (frame_of c q))
     = Z.of_nat (length (to_string c)) mod 4294967296.
Proof.
  rewrite encode_frame. split.
  - rewrite length_app, to_byte_array_length. reflexivity.
  - rewrite <- (to_byte_array_length
                  order (uint32 (Z.of_nat (length (to_string c))))) at 1.
    rewrite firstn_prefix. unfold uint32.
    apply byte_array_round_trip. apply Z.mod_pos_bound. lia.
Qed.

Lemma one_poll_prefix (n : Z) (rest : std_string)
  (callback : read_command_callback_type) (others : list (Z * read_handler))
  (done : list action) (q : quorum) :
  0 <= n < 4294967296 ->
  one_poll (mk_io_service quorum (to_byte_array order n ++ rest)
              ((4, bound_read_command_parse_size callback) :: others)
              done q (returned tt))
  = mk_io_service quorum rest
      (others ++ [(n, bound_read_command_parse_command callback)])
      (done ++ [new_char_array n;
                async_read n (bound_read_command_parse_command callback)])
      q (returned tt).
Proof.
  intros Hn. unfold poll_one.
  cbn [last_ending outstanding_reads incoming quorum_ performed].
  rewrite complete_read_prefix. cbn [run_handler].
  rewrite to_byte_array_length, parse_size_of_prefix by assumption.
  reflexivity.
Qed.

Lemma one_poll_body (body rest : std_string)
  (callback : read_command_callback_type) (others : list (Z * read_handler))
  (done : list action) (q : quorum) :
  one_poll (mk_io_service quorum (body ++ rest)
              ((Z.of_nat (length body),
                bound_read_command_parse_command callback) :: others)
              done q (returned tt))
  = match calls callback (from_string body) q with
    | (l, r, q') =>
        mk_io_service quorum rest (others ++ issued_reads l)
                      (done ++ cancel_timeout :: l) q' r
    end.
Proof.
  unfold poll_one.
  cbn [last_ending outstanding_reads incoming quorum_ performed].
  rewrite complete_read_front. cbn [run_handler].
  unfold read_command_parse_command, bind, perform. rewrite firstn_all.
  destruct (calls callback (from_string body) q) as [[l r] q'].
  destruct r; reflexivity.
Qed.

Lemma one_poll_short (size : Z) (handler : read_handler) (stream : std_string)
  (others : list (Z * read_handler)) (done : list action) (q : quorum) :
  (length stream < Z.to_nat size)%nat ->
  one_poll (mk_io_service quorum stream ((size, handler) :: others)
              done q (returned tt))
  = mk_io_service quorum [] others
      (done ++ match handler with
               | bound_read_command_parse_size _ => [warn]
               | bound_read_command_parse_command _ => [cancel_timeout; warn]
               end)
      q (returned tt).
Proof.
  intros Hshort. unfold poll_one, complete_read.
  cbn [last_ending outstanding_reads incoming quorum_ performed].
  assert (H : (Z.to_nat size <=? length stream)%nat = false)
    by (apply Nat.leb_gt; exact Hshort).
  rewrite H. destruct handler; cbn; rewrite app_nil_r; reflexivity.
Qed.

Lemma polling_stopped (fuel : nat) (s : io_service quorum) (e : exception) :
  last_ending quorum s = thrown e -> polling fuel s = s.
Proof.
  revert s. induction fuel as [|fuel IH]; intros s Hs; [reflexivity|].
  cbn [poll].
  assert (H : one_poll s = s) by (unfold poll_one; rewrite Hs; reflexivity).
  rewrite H. apply IH. exact Hs.
Qed.

(** X12: when the peer ends the stream before the four bytes of a length
    prefix are there, the reader logs a warning and stops: no body is
    read, no command reaches the callback, the quorum is as before and
    no read is left outstanding. *)
Theorem stream_shorter_than_prefix_delivers_nothing (fuel : nat)
  (callback : read_command_callback_type) (stream : std_string) (q : quorum) :
  (length stream < 4)%nat ->
  (1 <= fuel)%nat ->
  polling fuel (post quorum (read_command quorum callback) stream q)
  = mk_io_service quorum [] []
      [new_char_array 4;
       async_read 4 (bound_read_command_parse_size callback); warn]
      q (returned tt).
Proof.
  intros Hshort Hfuel. destruct fuel as [|fuel]; [lia|].
  cbn [poll]. unfold post, read_command, bind, perform.
  cbn [issued_reads flat_map app].
  rewrite one_poll_short by (cbn; lia).
  apply poll_idle. reflexivity.
Qed.

(** X13: when the peer ends the stream after a length prefix and before
    as many body bytes as the prefix says, the reader takes what is
    there, cancels the timeout of the connection, logs a warning and
    stops: the part of the body that arrived is not given to the
    callback and no read is left outstanding. *)
Theorem stream_shorter_than_body_delivers_nothing (fuel : nat) (n : Z)
  (callback : read_command_callback_type) (body : std_string) (q : quorum) :
  0 <= n < 4294967296 ->
  (length body < Z.to_nat n)%nat ->
  (2 <= fuel)%nat ->
  polling fuel (post quorum (read_command quorum callback)
                     (to_byte_array order n ++ body) q)
  = mk_io_service quorum [] []
      [new_char_array 4;
       async_read 4 (bound_read_command_parse_size callback);
       new_char_array n;
       async_read n (bound_read_command_parse_command callback);
       cancel_timeout; warn]
      q (returned tt).
Proof.
  intros Hn Hshort Hfuel. destruct fuel as [|[|fuel]]; [lia | lia |].
  cbn [poll]. unfold post, read_command, bind, perform.
  cbn [issued_reads flat_map app].
  rewrite one_poll_prefix by assumption. cbn [app].
  rewrite one_poll_short by assumption.
  apply poll_idle. reflexivity.
Qed.

(** X14: a frame whose prefix is zero is complete without a body byte:
    the reader gives the command [command::from_string] makes of the
    empty string to the callback and leaves the bytes after the prefix
    in the stream. *)
Theorem empty_frame_delivers_command_of_empty_string (fuel id : nat)
  (rest : std_string) (q : quorum) :
  (2 <= fuel)%nat ->
  decode quorum order from_string handshake_receives leader_claim_receives
         leader_receives external_callback_runs fuel id
         (to_byte_array order 0 ++ rest) q
  = ([from_string []], rest).
Proof.
  intros Hfuel. destruct fuel as [|[|fuel]]; [lia | lia |].
  pose proof (poll_reads_one_frame quorum order from_string handshake_receives
                leader_claim_receives leader_receives external_callback_runs
                [] rest id q ltac:(cbn; lia)) as H.
  cbn [length Z.of_nat] in H. rewrite app_nil_r in H.
  unfold decode. cbn [poll] in *. rewrite H.
  rewrite poll_idle by reflexivity. reflexivity.
Qed.

End Reading.

Lemma stream_shorter_than_prefix_witness :
  poll unit little_endian tagged_from_string no_change no_change no_change
       no_external_change 1
       (post unit (read_command unit bound_handle_command) [x01; x00] tt)
  = mk_io_service unit [] []
      [new_char_array 4;
       async_read 4 (bound_read_command_parse_size bound_handle_command); warn]
      tt (returned tt).
Proof.
  apply (stream_shorter_than_prefix_delivers_nothing unit little_endian
           tagged_from_string no_change no_change no_change no_external_change
           1 bound_handle_command [x01; x00] tt).
  - simpl. lia.
  - lia.
Defined.

Lemma stream_shorter_than_body_witness :
  poll unit little_endian tagged_from_string no_change no_change no_change
       no_external_change 2
       (post unit (read_command unit bound_handle_command)
             (to_byte_array little_endian 5 ++ [x01; x00]) tt)
  = mk_io_service unit [] []
      [new_char_array 4;
       async_read 4 (bound_read_command_parse_size bound_handle_command);
       new_char_array 5;
       async_read 5 (bound_read_command_parse_command bound_handle_command);
       cancel_timeout; warn]
      tt (returned tt).
Proof.
  apply (stream_shorter_than_body_delivers_nothing unit little_endian
           tagged_from_string no_change no_change no_change no_external_change
           2 5 bound_handle_command [x01; x00] tt).
  - lia.
  - simpl. lia.
  - lia.
Defined.

Lemma empty_frame_witness :
  decode unit little_endian tagged_from_string no_change no_change no_change
         no_external_change 2 0 (to_byte_array little_endian 0 ++ Client.foo) tt
  = ([tagged_from_string []], Client.foo).
Proof.
  apply (empty_frame_delivers_command_of_empty_string unit little_endian
           tagged_from_string no_change no_change no_change no_external_change
           2 0 Client.foo tt).
  lia.
Defined.

(** *** Frames on a connection set up by [new_connection] *)

Section Dispatch.

Variable quorum : Type.
Variable order : byte_order.
Variable to_string : command -> std_string.
Variable from_string : std_string -> command.
Variables handshake_receives leader_claim_receives leader_receives :
  command -> quorum -> quorum.
Variable external_callback_runs : nat -> command -> quorum -> quorum.

Local Notation "'one_poll'" :=
  (poll_one quorum order from_string handshake_receives
     leader_claim_receives leader_receives external_callback_runs).
Local Notation "'polling'" :=
  (poll quorum order from_string handshake_receives
     leader_claim_receives leader_receives external_callback_runs).
Local Notation "'dispatch'" :=
  (handle_command quorum handshake_receives leader_claim_receives
     leader_receives).
Local Notation "'frame_of'" := (encode quorum order to_string).
Local Notation "'change_of'" :=
  (receiver_change quorum handshake_receives leader_claim_receives
     leader_receives).
Local Notation "'next_prefix'" :=
  (4, bound_read_command_parse_size bound_handle_command).

Lemma dispatch_recognized (c : command) (q : quorum) :
  recognized (type c) = true ->
  exists l,
    dispatch c q = (l, returned tt, change_of c q)
    /\ dispatched l = [c]
    /\ issued_reads l = [next_prefix].
Proof.
  intros Hc. unfold handle_command, receiver_change, bind, call, read_command,
               perform.
  destruct (type c) eqn:Ht; try discriminate Hc;
    eexists; repeat split.
Qed.

Lemma dispatch_unrecognized (c : command) (q : quorum) :
  recognized (type c) = false ->
  dispatch c q = ([], thrown protocol_error, q).
Proof.
  intros Hc. unfold handle_command, bind, PAXOS_THROW.
  destruct (type c); try discriminate Hc; reflexivity.
Qed.

Lemma small_frame (c : command) (q : quorum) :
  Z.of_nat (length (to_string c)) < 4294967296 ->
  frame_of c q
  = to_byte_array order (Z.of_nat (length (to_string c))) ++ to_string c.
Proof.
  intros Hlen. rewrite encode_frame. unfold uint32.
  rewrite Z.mod_small by lia. reflexivity.
Qed.

Lemma dispatched_app (l l' : list action) :
  dispatched (l ++ l') = dispatched l ++ dispatched l'.
Proof. unfold dispatched. apply flat_map_app. Qed.

(** The reader of [new_connection] on a stream of frames of recognized
    commands. *)
Lemma polling_frames (q0 : quorum) (rest : std_string) (cs : list command) :
  forall (done : list action) (q : quorum),
  Forall (fun c => recognized (type c) = true
                   /\ from_string (to_string c) = c
                   /\ Z.of_nat (length (to_string c)) < 4294967296) cs ->
  exists more,
    polling (2 * length cs)
            (mk_io_service quorum
               (flat_map (fun c => frame_of c q0) cs ++ rest)
               [next_prefix] done q (returned tt))
    = mk_io_service quorum rest [next_prefix] (done ++ more)
        (fold_left (fun q' c => change_of c q') cs q) (returned tt)
    /\ dispatched more = cs.
Proof.
  induction cs as [|c cs IH]; intros done q Hall.
  - exists []. cbn. rewrite app_nil_r. split; reflexivity.
  - inversion Hall as [|c' cs' (Hrec & Hcodec & Hlen) Hrest]; subst.
    replace (2 * length (c :: cs))%nat with (S (S (2 * length cs)))
      by (cbn [length]; lia).
    cbn [poll flat_map fold_left].
    rewrite (small_frame c q0 Hlen), <- !app_assoc.
    rewrite one_poll_prefix by lia. cbn [app].
    rewrite one_poll_body. cbn [invoke]. rewrite Hcodec.
    destruct (dispatch_recognized c q Hrec) as (l & Hd & Hl & Hreads).
    rewrite Hd, Hreads. cbn [app].
    destruct (IH ((done ++ [new_char_array (Z.of_nat (length (to_string c)));
                            async_read (Z.of_nat (length (to_string c)))
                              (bound_read_command_parse_command
                                 bound_handle_command)])
                    ++ cancel_timeout :: l)
                 (change_of c q) Hrest) as (more & Hpoll & Hmore).
    exists ([new_char_array (Z.of_nat (length (to_string c)));
             async_read (Z.of_nat (length (to_string c)))
               (bound_read_command_parse_command bound_handle_command)]
              ++ (cancel_timeout :: l) ++ more).
    split.
    + rewrite Hpoll. rewrite <- !app_assoc. reflexivity.
    + rewrite dispatched_app. change (cancel_timeout :: l) with ([cancel_timeout] ++ l).
      rewrite <- app_assoc, !dispatched_app, Hl, Hmore. reflexivity.
Qed.

Lemma new_connection_reads_frames
  (q0 q : quorum) (rest : std_string) (cs : list command) :
  Forall (fun c => recognized (type c) = true
                   /\ from_string (to_string c) = c
                   /\ Z.of_nat (length (to_string c)) < 4294967296) cs ->
  exists done,
    polling (2 * length cs)
            (post quorum (new_connection quorum)
                  (flat_map (fun c => frame_of c q0) cs ++ rest) q)
    = mk_io_service quorum rest [next_prefix] done
        (fold_left (fun q' c => change_of c q') cs q) (returned tt)
    /\ dispatched done = cs.
Proof.
  intros Hall.
  unfold post, new_connection, read_command, bind, perform.
  cbn [issued_reads flat_map app].
  destruct (polling_frames q0 rest cs
              [new_char_array 4; async_read 4
                 (bound_read_command_parse_size bound_handle_command)]
              q Hall) as (more & Hpoll & Hmore).
  eexists. split; [exact Hpoll|].
  rewrite dispatched_app, Hmore. reflexivity.
Qed.

(** X15: on a connection set up by [new_connection], a stream of frames
    of commands of the three recognized types (each given back by its
    serializer, each body shorter than 4 GiB) is read frame by frame:
    the commands reach the receivers of their types in the order of the
    stream, each receiver works on the quorum the one before it left,
    the bytes after the frames stay in the stream, and the read of the
    next prefix is outstanding. *)
Theorem frames_are_dispatched_in_stream_order
  (q0 q : quorum) (rest : std_string) (cs : list command) :
  Forall (fun c => recognized (type c) = true
                   /\ from_string (to_string c) = c
                   /\ Z.of_nat (length (to_string c)) < 4294967296) cs ->
  let s := polling (2 * length cs)
             (post quorum (new_connection quorum)
                   (flat_map (fun c => frame_of c q0) cs ++ rest) q) in
  dispatched (performed quorum s) = cs
  /\ incoming quorum s = rest
  /\ outstanding_reads quorum s = [next_prefix]
  /\ quorum_ quorum s = fold_left (fun q' c => change_of c q') cs q
  /\ last_ending quorum s = returned tt.
Proof.
  intros Hall. cbv zeta.
  destruct (new_connection_reads_frames q0 q rest cs Hall)
    as (done & Hpoll & Hdone).
  rewrite Hpoll. repeat split. exact Hdone.
Qed.

(** X16: the command [initiate_request] writes is not one
    [handle_command] accepts: on a connection set up by
    [new_connection] its frame is read, the timeout is cancelled, and
    [protocol_error] leaves the completion handler; no receiver is
    called, no read is started, and the bytes after the frame are never
    read. *)
Theorem initiate_request_is_refused_by_handle_command
  (fuel : nat) (byte_array rest : std_string) (q0 q : quorum) :
  from_string (to_string (mk_command type_request_initiate byte_array))
  = mk_command type_request_initiate byte_array ->
  Z.of_nat (length (to_string (mk_command type_request_initiate byte_array)))
  < 4294967296 ->
  (2 <= fuel)%nat ->
  polling fuel
    (post quorum (new_connection quorum)
          (written (actions (initiate_request quorum order to_string
                                              byte_array q0)) ++ rest) q)
  = mk_io_service quorum rest []
      [new_char_array 4;
       async_read 4 (bound_read_command_parse_size bound_handle_command);
       new_char_array
         (Z.of_nat (length (to_string
                              (mk_command type_request_initiate byte_array))));
       async_read
         (Z.of_nat (length (to_string
                              (mk_command type_request_initiate byte_array))))
         (bound_read_command_parse_command bound_handle_command);
       cancel_timeout]
      q (thrown protocol_error).
Proof.
  intros Hcodec Hlen Hfuel. destruct fuel as [|[|fuel]]; [lia | lia |].
  change (written (actions (initiate_request quorum order to_string
                                             byte_array q0)))
    with (frame_of (mk_command type_request_initiate byte_array) q0).
  rewrite (small_frame _ q0 Hlen), <- app_assoc.
  cbn [poll]. unfold post, new_connection, read_command, bind, perform.
  cbn [issued_reads flat_map app].
  rewrite one_poll_prefix by lia. cbn [app].
  rewrite one_poll_body. cbn [invoke]. rewrite Hcodec.
  rewrite dispatch_unrecognized by reflexivity.
  cbn [app issued_reads flat_map].
  apply polling_stopped with (e := protocol_error). reflexivity.
Qed.

(** X17: commands of the three recognized types written with
    [write_command] to one connection one by one, each after the write
    of the one before it has completed, reach the peer as their frames
    in the order of the calls, whatever capacities the library chooses
    for [write_buffer_], and the reader of [new_connection] on the peer
    gives them to the receivers in that order. *)
Theorem commands_written_one_by_one_are_dispatched_in_order
  (initial_capacity : nat) (new_capacity : nat -> nat -> nat)
  (q0 q : quorum) (cs : list command) :
  Forall (fun c => recognized (type c) = true
                   /\ from_string (to_string c) = c
                   /\ Z.of_nat (length (to_string c)) < 4294967296) cs ->
  exists sender,
    TcpStorage.run new_capacity (TcpStorage.create initial_capacity)
      (TcpStorage.one_by_one (map (fun c => frame_of c q0) cs))
    = TcpStorage.returned sender
    /\ TcpStorage.characters (TcpStorage.write_buffer_ sender) = []
    /\ TcpStorage.outstanding_writes sender = []
    /\ TcpStorage.peer_received sender
       = flat_map (fun c => frame_of c q0) cs
    /\ dispatched
         (performed quorum
            (polling (2 * length cs)
               (post quorum (new_connection quorum)
                     (TcpStorage.peer_received sender) q)))
       = cs.
Proof.
  intros Hall.
  assert (Hframes : Forall (fun message : std_string => message <> [])
                           (map (fun c => frame_of c q0) cs)).
  { apply Forall_map. apply Forall_forall. intros c _ Hnil.
    rewrite encode_frame in Hnil. destruct order; discriminate Hnil. }
  destruct (TcpStorageFacts.one_by_one_arrives new_capacity _
              (TcpStorage.create initial_capacity) eq_refl eq_refl Hframes)
    as (sender & Hrun & Hchars & Hviews & Hpeer).
  cbn [TcpStorage.create TcpStorage.peer_received app] in Hpeer.
  rewrite <- flat_map_concat_map in Hpeer.
  exists sender. repeat split; try assumption.
  rewrite Hpeer.
  destruct (new_connection_reads_frames q0 q [] cs Hall)
    as (done & Hpoll & Hdone).
  rewrite app_nil_r in Hpoll. rewrite Hpoll. exact Hdone.
Qed.

End Dispatch.

Lemma frames_are_dispatched_witness :
  dispatched
    (performed unit
       (poll unit little_endian tagged_from_string no_change no_change
             no_change no_external_change 4
             (post unit (new_connection unit)
                   (flat_map
                      (fun c => encode unit little_endian tagged_to_string c tt)
                      [mk_command type_handshake_start Client.foo;
                       mk_command type_leader_claim Client.bar]
                      ++ TcpConnection.ping) tt)))
  = [mk_command type_handshake_start Client.foo;
     mk_command type_leader_claim Client.bar].
Proof.
  refine (proj1 (frames_are_dispatched_in_stream_order
                   unit little_endian tagged_to_string tagged_from_string
                   no_change no_change no_change no_external_change
                   tt tt TcpConnection.ping
                   [mk_command type_handshake_start Client.foo;
                    mk_command type_leader_claim Client.bar] _)).
  repeat constructor; simpl; lia.
Defined.

Lemma initiate_request_is_refused_witness :
  last_ending unit
    (poll unit little_endian tagged_from_string no_change no_change
          no_change no_external_change 2
          (post unit (new_connection unit)
                (written (actions (initiate_request unit little_endian
                                     tagged_to_string Client.foo tt)) ++ []) tt))
  = thrown protocol_error.
Proof.
  rewrite (initiate_request_is_refused_by_handle_command
             unit little_endian tagged_to_string tagged_from_string
             no_change no_change no_change no_external_change
             2 Client.foo [] tt tt).
  - reflexivity.
  - reflexivity.
  - simpl. lia.
  - lia.
Defined.

Lemma commands_written_one_by_one_witness :
  exists sender,
    TcpStorage.run TcpStorage.doubling (TcpStorage.create 15)
      (TcpStorage.one_by_one
         (map (fun c => encode unit little_endian tagged_to_string c tt)
              [mk_command type_handshake_start Client.foo;
               mk_command type_leader_claim Client.bar]))
    = TcpStorage.returned sender
    /\ TcpStorage.characters (TcpStorage.write_buffer_ sender) = []
    /\ TcpStorage.outstanding_writes sender = []
    /\ TcpStorage.peer_received sender
       = flat_map (fun c => encode unit little_endian tagged_to_string c tt)
                  [mk_command type_handshake_start Client.foo;
                   mk_command type_leader_claim Client.bar]
    /\ dispatched
         (performed unit
            (poll unit little_endian tagged_from_string no_change no_change
                  no_change no_external_change 4
                  (post unit (new_connection unit)
                        (TcpStorage.peer_received sender) tt)))
       = [mk_command type_handshake_start Client.foo;
          mk_command type_leader_claim Client.bar].
Proof.
  apply (commands_written_one_by_one_are_dispatched_in_order
           unit little_endian tagged_to_string tagged_from_string
           no_change no_change no_change no_external_change
           15%nat TcpStorage.doubling tt tt
           [mk_command type_handshake_start Client.foo;
            mk_command type_leader_claim Client.bar]).
  repeat constructor; simpl; lia.
Defined.

End ProtocolFacts.
